(** * opa-kube-scheduler: the scheduling core of [pkg/scheduler.go]

    A shallow embedding of the Go code of [pkg/scheduler.go]: the two actions
    the dispatcher routes reflector messages to ([schedule] and [patch]), the
    scheduling attempt ([schedulePod]), the binding call ([bindPod]) and the
    helpers they share, followed by the properties of these functions.

    Go values are modelled as the program has them.  A decoded JSON value is
    an [interface{}]; a [map[string]interface{}] is a reference type, so a
    map value is an address and the entries of the map live in a heap.  The
    in-memory store built in [cmd/opa-kube-scheduler/main.go]
    ([storage.InMemoryConfig]) keeps the values written to it, by reference
    when they are maps.  Calls to the collaborators (store, ranking oracle,
    control plane, logger) are recorded in a trace. *)

From Stdlib Require Import ZArith Floats Lia.
From stdpp Require Import base option list gmap strings.

Set Warnings "-register-all,-inexact-float".
Local Open Scope string_scope.

(** ** float64 comparison

    Weights are [float64]; [rankings.Less] compares them with the exact [<]
    of IEEE 754 binary64, which is what Rocq's primitive floats implement. *)

Module Float64.

Definition lt (x y : float) : bool := PrimFloat.ltb x y.
Definition le (x y : float) : bool := PrimFloat.leb x y.
Definition is_nan (x : float) : bool := PrimFloat.is_nan x.

End Float64.

Arguments Float64.lt : simpl never.
Arguments Float64.le : simpl never.
Arguments Float64.is_nan : simpl never.

(** ** Go values *)

Definition loc := positive.

(** An [interface{}] holding decoded JSON.  [MapRef l] is a
    [map[string]interface{}]: the address of a map object. *)
Inductive value :=
| Nil
| Bool (b : bool)
| Float64 (f : float)
| Str (s : string)
| Slice (xs : list value)
| MapRef (l : loc).
Arguments Float64 f%_float.
Arguments MapRef l%_positive.

(** The entries of one map object.  The order of the list is the order in
    which a [range] over the map visits the entries in the run at hand; Go
    leaves that order unspecified, so nothing below may depend on it. *)
Abbreviation gomap := (list (string * value)).

(** [m[k]]: the value stored under [k], and the zero value [nil] when the key
    is absent. *)
Fixpoint index (m : gomap) (k : string) : value :=
  match m with
  | [] => Nil
  | (k', v) :: rest => if String.eqb k k' then v else index rest k
  end.

(** [m[k] = v] on the entries of a map. *)
Fixpoint assign (m : gomap) (k : string) (v : value) : gomap :=
  match m with
  | [] => [(k, v)]
  | (k', v') :: rest =>
      if String.eqb k k' then (k, v) :: rest else (k', v') :: assign rest k v
  end.

Abbreviation heap := (gmap loc gomap).

(** Reading through a map reference.  An address with no object is the nil
    map: it reads as empty, and assigning into it panics. *)
Definition load (h : heap) (l : loc) : gomap := default [] (h !! l).

(** ** Errors, results and outcomes *)

(** [data.<root>[<key>]], the only kind of reference the scheduler builds. *)
Definition Path : Type := string * string.

Inductive error :=
| MalformedObject (obj : value)   (* fmt.Errorf("malformed object: %v", obj) *)
| MalformedPod (pod : value)      (* fmt.Errorf("malformed pod: %v", pod) *)
| NotFound (path : Path)          (* storage: no document at the path *)
| Failure (msg : string).         (* an error made by a collaborator *)

(** A Go [(T, error)] pair. *)
Inductive result (A : Type) :=
| Ok (a : A)
| Err (e : error).
Arguments Ok {A} a.
Arguments Err {A} e.

(** How a call ends: it returns, or it panics.  Nothing in this package
    recovers, so a panic ends the goroutine and with it the process. *)
Inductive outcome (A : Type) :=
| Return (a : A)
| Panic (reason : string).
Arguments Return {A} a.
Arguments Panic {A} reason.

(** ** The store: [storage.Storage] with the in-memory configuration *)

Inductive PatchOp := AddOp | RemoveOp | ReplaceOp.

(** What [storage.Write] does to the in-memory documents.  The operations
    are those of JSON Patch: add upserts the key of an existing collection,
    remove and replace need the key to exist. *)
Definition patchData (op : PatchOp) (path : Path) (v : value)
    (d : gmap string (gmap string value)) : result (gmap string (gmap string value)) :=
  match d !! path.1 with
  | None => Err (NotFound path)
  | Some coll =>
      match op with
      | AddOp => Ok (<[path.1 := <[path.2 := v]> coll]> d)
      | ReplaceOp =>
          match coll !! path.2 with
          | Some _ => Ok (<[path.1 := <[path.2 := v]> coll]> d)
          | None => Err (NotFound path)
          end
      | RemoveOp =>
          match coll !! path.2 with
          | Some _ => Ok (<[path.1 := delete path.2 coll]> d)
          | None => Err (NotFound path)
          end
      end
  end.

(** ** The binding request *)

(** Modelled from the spec: the declarations of the [binding], [metadata] and
    [target] structs are not in this file; section 6 gives the body of the
    POST as [{apiVersion, kind, metadata:{name, namespace},
    target:{apiVersion, kind, name}}], and [bindPod] names the fields. *)
Record metadata := { Name : string; Namespace : string }.
Record target := { target_APIVersion : string; target_Kind : string; target_Name : string }.
Record binding := {
  APIVersion : string;
  Kind : string;
  Metadata : metadata;
  Target : target
}.

Record Request := { Method : string; URL : string; Body : binding }.
Record Response := { StatusCode : Z }.

Definition StatusCreated : Z := 201.

(** ** Rankings *)

Record ranking := { nodeName : string; weight : float }.

Definition rankings := list ranking.

Definition Len (r : rankings) : nat := length r.

(** [r[i].weight < r[j].weight]; [None] is the index-out-of-range panic. *)
Definition Less (r : rankings) (i j : nat) : option bool :=
  a ← r !! i; b ← r !! j; Some (Float64.lt (weight a) (weight b)).

(** [tmp := r[i]; r[i] = r[j]; r[j] = tmp]; [None] is the
    index-out-of-range panic, which comes before anything is assigned. *)
Definition Swap (r : rankings) (i j : nat) : option rankings :=
  tmp ← r !! i; b ← r !! j; Some (<[j := tmp]> (<[i := b]> r)).

(** [sort.IsSorted]: no element is [Less] than the one before it. *)
Definition IsSorted (r : rankings) : Prop :=
  ∀ i, S i < Len r → Less r (S i) i = Some false.

(** ** Messages, log lines and the trace *)

(** Modelled from the spec: the reflector's message types ([resync], [sync]
    and the event kinds) are declared outside this file; section 3 gives a
    change event as a Resync carrying the items of the snapshot, an
    Incremental event tagged added, modified or deleted carrying one
    document, or an error. *)
Inductive syncType := added | modified | deleted.

Inductive payload :=
| resync (Items : list value)                 (* *resync *)
| sync (kind : syncType) (Object : loc)       (* *sync{Type, Object}; Object is a map *)
| failed (e : error)                          (* error *)
| unknown.                                    (* any other dynamic type *)

Inductive severity := Info | Error.

Inductive logline :=
| TransactionFailed (e : error)
| FitUndefined (podName : value)
| FitMalformed (podName : value)
| NoNodesAvailable (podName : value)
| BindFailed (podName : value) (e : error)
| Scheduled (podName : value) (node : string).

Inductive event :=
| EvNewTransaction
| EvClose
| EvWrite (op : PatchOp) (path : Path) (v : value)
| EvQuery (pod : loc)
| EvDo (req : Request)
| EvLog (sev : severity) (line : logline).

(** The writes among the events, in order. *)
Definition writes (t : list event) : list (PatchOp * Path * value) :=
  omap (λ e, match e with EvWrite op p v => Some (op, p, v) | _ => None end) t.

(** What [topdown.Query] hands back besides an error. *)
Inductive results :=
| Undefined              (* topdown.Undefined *)
| Val (v : value).

(** ** State and the monad of Go calls *)

Record state := {
  objects : heap;       (* the map objects *)
  data : gmap string (gmap string value);   (* the documents of the store *)
  trace : list event    (* calls made to the collaborators, oldest first *)
}.

Definition Go (A : Type) : Type := state → outcome A * state.

#[export] Instance Go_ret : MRet Go := λ A a σ, (Return a, σ).

#[export] Instance Go_bind : MBind Go := λ A B k m σ,
  match m σ with
  | (Return a, σ') => k a σ'
  | (Panic why, σ') => (Panic why, σ')
  end.

Definition ret {A} (a : A) : Go A := mret a.

Definition panic {A} (why : string) : Go A := λ σ, (Panic why, σ).

(** Reads of the heap. *)
Definition reads {A} (f : heap → A) : Go A := λ σ, (Return (f (objects σ)), σ).

Definition emit (e : event) : Go unit :=
  λ σ, (Return tt, {| objects := objects σ; data := data σ; trace := (trace σ ++ [e])%list |}).

Definition glog (sev : severity) (line : logline) : Go unit := emit (EvLog sev line).

(** [defer d] at the head of [body]: [d] runs when [body] is left, whether it
    returns or panics. *)
Definition defer {A} (d : Go unit) (body : Go A) : Go A :=
  λ σ, let (r, σ') := body σ in (r, (d σ').2).

(** [for _, x := range xs { if err := f(x); err != nil { return err } }] *)
Fixpoint forEach {A} (f : A → Go (option error)) (xs : list A) : Go (option error) :=
  match xs with
  | [] => ret None
  | x :: rest =>
      err ← f x;
      match err with
      | Some e => ret (Some e)
      | None => forEach f rest
      end
  end.

(** [spec[k] = v] through a map reference; the nil map panics. *)
Definition store_index (l : loc) (k : string) (v : value) : Go unit :=
  λ σ, match objects σ !! l with
       | Some m =>
           (Return tt, {| objects := <[l := assign m k v]> (objects σ);
                          data := data σ; trace := trace σ |})
       | None => (Panic "assignment to entry in nil map", σ)
       end.

(** *** The store's interface

    With the in-memory configuration a transaction always opens; the code
    checks the error all the same, and so does the model. *)
Definition Transaction := unit.

Definition NewTransaction : Go (result Transaction) :=
  emit EvNewTransaction;; ret (Ok tt).

Definition Close (txn : Transaction) : Go unit := emit EvClose.

Definition documents : Go (gmap string (gmap string value)) :=
  λ σ, (Return (data σ), σ).

Definition set_documents (d : gmap string (gmap string value)) : Go unit :=
  λ σ, (Return tt, {| objects := objects σ; data := d; trace := trace σ |}).

Definition Write (txn : Transaction) (op : PatchOp) (path : Path) (v : value)
    : Go (option error) :=
  emit (EvWrite op path v);;
  d ← documents;
  match patchData op path v d with
  | Ok d' => set_documents d';; ret None
  | Err e => ret (Some e)
  end.

(** ** The collaborators

    What the scheduler calls and this package does not define: the library's
    [sort.Sort], the ranking oracle ([topdown.Query] with the compiled policy
    of [s.server] and the path [s.fit]), [net/url] behind [http.NewRequest],
    and the helpers on [s.config] that are declared outside this file
    ([baseURLFor], [clientFor], [httpErr]) together with [client.Do]. *)
Record Env := {
  sort_Sort : rankings → rankings;
  topdown_Query : gmap string (gmap string value) → heap → loc → result results;
  url_Parse : string → option error;
  baseURLFor : string;
  clientFor : option error;
  client_Do : Request → result Response;
  httpErr : Request → Response → error
}.

(** What the library promises of [sort.Sort]: it rearranges the data through
    [Swap] only, and leaves it sorted for [Less] when [Less] orders the
    data, which [<] does on weights that are numbers. *)
Definition numbers (r : rankings) : Prop :=
  Forall (λ x, Float64.is_nan (weight x) = false) r.

Definition sort_permutes (E : Env) : Prop := ∀ r, sort_Sort E r ≡ₚ r.

Definition sort_sorts (E : Env) : Prop := ∀ r, numbers r → IsSorted (sort_Sort E r).

(** ** Type assertions *)

Definition assertMap (v : value) : Go loc :=
  match v with
  | MapRef l => ret l
  | _ => panic "interface conversion: interface {} is not map[string]interface {}"
  end.

Definition assertFloat64 (v : value) : Go float :=
  match v with
  | Float64 w => ret w
  | _ => panic "interface conversion: interface {} is not float64"
  end.

(** ** Helpers of the scheduler *)

Definition getMetadata (key : string) (obj : value) (h : heap) : result string :=
  match obj with
  | MapRef o =>
      match index (load h o) "metadata" with
      | MapRef m =>
          match index (load h m) key with
          | Str u => Ok u
          | _ => Err (MalformedObject obj)
          end
      | _ => Err (MalformedObject obj)
      end
  | _ => Err (MalformedObject obj)
  end.

Definition getUID (obj : value) (h : heap) : result string :=
  getMetadata "uid" obj h.

Definition getNodeName (pod : loc) (h : heap) : result string :=
  match index (load h pod) "spec" with
  | MapRef m =>
      match index (load h m) "nodeName" with
      | Str v => Ok v
      | _ => Err (MalformedPod (MapRef pod))
      end
  | _ => Err (MalformedPod (MapRef pod))
  end.

(** [http.NewRequest]: the method is the constant "POST", so the only error
    is a URL that does not parse. *)
Definition http_NewRequest (E : Env) (method url : string) (body : binding)
    : result Request :=
  match url_Parse E url with
  | Some err => Err err
  | None => Ok {| Method := method; URL := url; Body := body |}
  end.

(** The loop of [schedulePod] over the oracle's mapping:
    [w := v.(float64); rankings = append(rankings, ranking{k, w})]. *)
Fixpoint appendRankings (results : gomap) (rs : rankings) : Go rankings :=
  match results with
  | [] => ret rs
  | (k, v) :: rest =>
      w ← assertFloat64 v;
      appendRankings rest (rs ++ [{| nodeName := k; weight := w |}])%list
  end.

Section Scheduler.

Context (E : Env).

Definition Query (pod : loc) : Go (result results) :=
  emit (EvQuery pod);;
  d ← documents;
  h ← reads id;
  ret (topdown_Query E d h pod).

Definition Do (req : Request) : Go (result Response) :=
  emit (EvDo req);; ret (client_Do E req).

Definition bindPod (pod : loc) : Go (option error) :=
  r ← reads (getMetadata "name" (MapRef pod));
  match r with
  | Err err => ret (Some err)
  | Ok podName =>
  r ← reads (getNodeName pod);
  match r with
  | Err err => ret (Some err)
  | Ok node =>
  r ← reads (getMetadata "namespace" (MapRef pod));
  match r with
  | Err err => ret (Some err)
  | Ok namespace =>
  let b := {| APIVersion := "v1";
              Kind := "Binding";
              Metadata := {| Name := podName; Namespace := namespace |};
              Target := {| target_APIVersion := "v1";
                           target_Kind := "Node";
                           target_Name := node |} |} in
  (* json.NewEncoder(buf).Encode(b): a struct of strings always encodes *)
  let path := baseURLFor E ++ "/namespaces/" ++ namespace ++ "/bindings" in
  match http_NewRequest E "POST" path b with
  | Err err => ret (Some err)
  | Ok req =>
  match clientFor E with
  | Some err => ret (Some err)
  | None =>
  r ← Do req;
  match r with
  | Err err => ret (Some err)
  | Ok resp =>
      if (StatusCode resp >? StatusCreated)%Z
      then ret (Some (httpErr E req resp))
      else ret None
  end end end end end end.

Definition schedulePod (pod : loc) : Go (option error) :=
  r ← reads (getUID (MapRef pod));
  match r with
  | Err err => ret (Some err)
  | Ok uid =>
  (* ast.InterfaceToValue(pod) has no error on decoded JSON, which is all
     that [value] holds; the oracle below is given the pod itself *)
  t ← NewTransaction;
  match t with
  | Err err => glog Error (TransactionFailed err);; ret (Some err)
  | Ok txn =>
  defer (Close txn) (
    md ← (m ← reads (λ h, load h pod); assertMap (index m "metadata"));
    podName ← reads (λ h, index (load h md) "name");
    q ← Query pod;
    match q with
    | Err err => ret (Some err)
    | Ok results =>
    match results with
    | Val (MapRef m) =>
        kvs ← reads (λ h, load h m);
        rs ← appendRankings kvs [];
        let rs := sort_Sort E rs in
        match last rs with
        | None => glog Info (NoNodesAvailable podName);; ret None
        | Some top =>
            let node := nodeName top in
            spec ← (m ← reads (λ h, load h pod); assertMap (index m "spec"));
            store_index spec "nodeName" (Str node);;
            let path := ("pods", uid) in
            w ← Write txn AddOp path (MapRef pod);
            match w with
            | Some err => ret (Some err)
            | None =>
                b ← bindPod pod;
                match b with
                | Some err =>
                    glog Error (BindFailed podName err);;
                    w2 ← Write txn RemoveOp path Nil;
                    match w2 with
                    | Some err2 => ret (Some err2)
                    | None => ret (Some err)
                    end
                | None => glog Info (Scheduled podName node);; ret None
                end
            end
        end
    | Undefined => glog Info (FitUndefined podName);; ret None
    | Val _ => glog Info (FitMalformed podName);; ret None
    end end)
  end end.

Definition schedule (resourceType : string) (p : payload) : Go (option error) :=
  match p with
  | resync Items =>
      forEach (λ item, pod ← assertMap item; schedulePod pod) Items
  | sync kind Object =>
      match kind with
      | added => schedulePod Object
      | _ => ret None
      end
  | failed e => ret (Some e)
  | unknown => ret None
  end.

Definition patchOp (resourceType : string) (op : PatchOp) (obj : value)
    : Go (option error) :=
  r ← reads (getUID obj);
  match r with
  | Err err => ret (Some err)
  | Ok uid =>
  let path := (resourceType, uid) in
  t ← NewTransaction;
  match t with
  | Err err => ret (Some err)
  | Ok txn => defer (Close txn) (Write txn op path obj)
  end end.

Definition patch (resourceType : string) (p : payload) : Go (option error) :=
  match p with
  | resync Items =>
      (* TODO(tsandall): handle stale objects *)
      forEach (λ item, patchOp resourceType AddOp item) Items
  | sync kind Object =>
      match kind with
      | added => patchOp resourceType AddOp (MapRef Object)
      | modified => patchOp resourceType ReplaceOp (MapRef Object)
      | deleted => patchOp resourceType RemoveOp (MapRef Object)
      end
  | failed e => ret (Some e)
  | unknown => ret None
  end.

End Scheduler.

(** ** Vocabulary of the properties *)

(** [pod.<section>.<key>] read through the reference [pod]; [nil] when the
    section is not an object or has no such key. *)
Definition field (h : heap) (pod : loc) (section key : string) : value :=
  match index (load h pod) section with
  | MapRef m => index (load h m) key
  | _ => Nil
  end.

Definition is_string (v : value) : Prop := ∃ s, v = Str s.

(** The pod document carries a [spec] object, [sp], with entries [spm]. *)
Definition has_spec (h : heap) (pod sp : loc) (spm : gomap) : Prop :=
  index (load h pod) "spec" = MapRef sp ∧ h !! sp = Some spm.

(** A mapping from node identifiers to weights: every value is a
    [float64]. *)
Definition weights (m : gomap) : Prop :=
  Forall (λ kv, ∃ w, kv.2 = Float64 w) m.

(** The weights are moreover numbers, that is, none is a NaN. *)
Definition numeric (m : gomap) : Prop :=
  Forall (λ kv, ∃ w, kv.2 = Float64 w ∧ Float64.is_nan w = false) m.

(** The rankings the loop of [schedulePod] makes of the float64 entries. *)
Definition rankingsOf (m : gomap) : rankings :=
  omap (λ kv, match kv.2 with
              | Float64 w => Some {| nodeName := kv.1; weight := w |}
              | _ => None
              end) m.

(** The request [bindPod] makes for a pod placed on [node]. *)
Definition bindingRequest (E : Env) (podName namespace node : string) : Request :=
  {| Method := "POST";
     URL := baseURLFor E ++ "/namespaces/" ++ namespace ++ "/bindings";
     Body := {| APIVersion := "v1";
                Kind := "Binding";
                Metadata := {| Name := podName; Namespace := namespace |};
                Target := {| target_APIVersion := "v1";
                             target_Kind := "Node";
                             target_Name := node |} |} |}.

(** The control plane turns the request down with [err]: [client.Do] fails,
    or the status of the response is above 201. *)
Definition rejects (E : Env) (req : Request) (err : error) : Prop :=
  client_Do E req = Err err ∨
  ∃ resp, client_Do E req = Ok resp ∧
          (StatusCode resp > StatusCreated)%Z ∧ err = httpErr E req resp.

(** The [metadata.uid] of an item of a snapshot, when it has one. *)
Definition uidOf (h : heap) (item : value) : option string :=
  match item with
  | MapRef l =>
      match field h l "metadata" "uid" with
      | Str u => Some u
      | _ => None
      end
  | _ => None
  end.

(** [w] is the upsert of [item] under its uid: an add at
    [data.<resourceType>[uid]] carrying the item. *)
Definition upserts (resourceType : string) (h : heap) (item : value)
    (w : PatchOp * Path * value) : Prop :=
  ∃ uid, uidOf h item = Some uid ∧ w = (AddOp, (resourceType, uid), item).

(** A collection after the adds [ws] were applied to it in order. *)
Definition upserted (coll : gmap string value) (ws : list (PatchOp * Path * value))
    : gmap string value :=
  foldl (λ c w, <[w.1.2.2 := w.2]> c) coll ws.

(** The state after the calls [evs] were recorded and nothing else changed. *)
Definition recorded (σ : state) (evs : list event) : state :=
  {| objects := objects σ; data := data σ; trace := (trace σ ++ evs)%list |}.

(** ** A cluster to run the code on

    A sort that meets the library's contract, an oracle that answers with a
    fixed fit document, a control plane that answers every POST with one
    status, and the pod of the end-to-end scenarios. *)

Module Cluster.

Fixpoint insert (x : ranking) (r : rankings) : rankings :=
  match r with
  | [] => [x]
  | y :: rest =>
      if Float64.lt (weight x) (weight y) then x :: y :: rest
      else y :: insert x rest
  end.

Definition insertion_sort (r : rankings) : rankings := foldr insert [] r.

(** The collaborators: the oracle answers [fit], [clientFor] answers
  [client] and the control plane answers [answer]. *)
Definition env (fit : result results) (client : option error)
    (answer : result Response) : Env :=
  {| sort_Sort := insertion_sort;
     topdown_Query := λ _ _ _, fit;
     url_Parse := λ _, None;
     baseURLFor := "https://10.0.0.1/api/v1";
     clientFor := client;
     client_Do := λ _, answer;
     httpErr := λ _ _, Failure "bad response" |}.

Definition status (code : Z) : result Response := Ok {| StatusCode := code |}.

(** [{metadata:{uid:"p1",name:"a",namespace:"ns"},spec:{},status:{phase:"Pending"}}]
  at address 1, a pod that names its node at address 5, and four fit
  documents at addresses 10 to 13. *)
Definition p1 : loc := 1%positive.
Definition p2 : loc := 5%positive.
Definition fit_one : loc := 10%positive.      (* {"node-1": 1.0} *)
Definition fit_three : loc := 11%positive.    (* {"n1": 0.3, "n2": 0.9, "n3": 0.9} *)
Definition fit_string : loc := 12%positive.   (* {"node-1": "high"} *)
Definition fit_empty : loc := 13%positive.    (* {} *)
Definition node2 : loc := 20%positive.        (* a node with uid "n2" *)
Definition stray : loc := 22%positive.        (* a document with no metadata *)

Definition objs : heap :=
  list_to_map
    [ (1%positive, [("metadata", MapRef 2); ("spec", MapRef 3); ("status", MapRef 4)]);
      (2%positive, [("uid", Str "p1"); ("name", Str "a"); ("namespace", Str "ns")]);
      (3%positive, []);
      (4%positive, [("phase", Str "Pending")]);
      (* a pod that already names its node *)
      (5%positive, [("metadata", MapRef 7); ("spec", MapRef 6)]);
      (6%positive, [("nodeName", Str "node-1")]);
      (7%positive, [("uid", Str "p2"); ("name", Str "b"); ("namespace", Str "ns")]);
      (10%positive, [("node-1", Float64 1.0)]);
      (11%positive, [("n1", Float64 0.3); ("n2", Float64 0.9); ("n3", Float64 0.9)]);
      (12%positive, [("node-1", Str "high")]);
      (13%positive, []);
      (* a node and a document without identity, for the patch action *)
      (20%positive, [("metadata", MapRef 21)]);
      (21%positive, [("uid", Str "n2"); ("name", Str "node-2")]);
      (22%positive, [("kind", Str "Node")]) ].

(** The store after [init]: the four root documents, all empty. *)
Definition roots : gmap string (gmap string value) :=
  list_to_map
    [ ("pods", ∅); ("nodes", ∅); ("replicationcontrollers", ∅); ("services", ∅) ].

Definition start : state := {| objects := objs; data := roots; trace := [] |}.

End Cluster.

(** * Properties *)

(** ** The order of float64 weights *)

Section Float64Order.

Lemma SFleb_trans a b c :
  SFleb a b = true → SFleb b c = true → SFleb a c = true.
Proof.
  unfold SFleb.
  destruct a as [sa|sa| |sa ma ea], b as [sb|sb| |sb mb eb],
           c as [sc|sc| |sc mc ec]; simpl;
    repeat match goal with s : bool |- _ => destruct s end; simpl; try done.
  all: change (Pos.compare_cont Eq ?x ?y) with (Pos.compare x y).
  all: destruct (Z.compare_spec ea eb), (Z.compare_spec eb ec),
         (Z.compare_spec ea ec); simpl; try done; try lia.
  all: subst.
  all: destruct (Pos.compare_spec ma mb), (Pos.compare_spec mb mc),
         (Pos.compare_spec ma mc); simpl; try done; try lia.
Qed.

Lemma SFcompare_swap a b c :
  SFcompare a b = Some c → SFcompare b a = Some (CompOpp c).
Proof.
  destruct a as [sa|sa| |sa ma ea], b as [sb|sb| |sb mb eb]; simpl;
    intros H; inversion H; subst; clear H;
    repeat match goal with s : bool |- _ => destruct s end; try reflexivity.
  all: rewrite (Z.compare_antisym ea eb); destruct (ea ?= eb)%Z; simpl;
    try reflexivity.
  all: change (Pos.compare_cont Eq ?x ?y) with (Pos.compare x y).
  all: rewrite (Pos.compare_antisym ma mb);
    destruct (ma ?= mb)%positive; reflexivity.
Qed.

Lemma SFcompare_defined a b :
  SFeqb a a = true → SFeqb b b = true → is_Some (SFcompare a b).
Proof.
  unfold SFeqb.
  destruct a as [sa|sa| |sa ma ea], b as [sb|sb| |sb mb eb]; simpl;
    try done; eauto.
Qed.

Lemma not_nan_eqb x : Float64.is_nan x = false → SFeqb (Prim2SF x) (Prim2SF x) = true.
Proof.
  unfold Float64.is_nan, PrimFloat.is_nan. rewrite FloatAxioms.eqb_spec.
  by intros ?%negb_false_iff.
Qed.

(** On numbers [<] is total: what is not below is at least. *)
Lemma lt_false_le x y :
  Float64.is_nan x = false → Float64.is_nan y = false →
  Float64.lt y x = false → Float64.le x y = true.
Proof.
  intros Hx%not_nan_eqb Hy%not_nan_eqb.
  unfold Float64.lt, Float64.le. rewrite FloatAxioms.ltb_spec, FloatAxioms.leb_spec.
  unfold SFltb, SFleb.
  destruct (SFcompare_defined _ _ Hy Hx) as [c Hc].
  rewrite Hc, (SFcompare_swap _ _ _ Hc). by destruct c.
Qed.

Lemma le_trans x y z :
  Float64.le x y = true → Float64.le y z = true → Float64.le x z = true.
Proof. unfold Float64.le. rewrite !FloatAxioms.leb_spec. apply SFleb_trans. Qed.

Lemma le_refl x : Float64.is_nan x = false → Float64.le x x = true.
Proof.
  intros Hx%not_nan_eqb. unfold Float64.le. rewrite FloatAxioms.leb_spec.
  revert Hx. unfold SFeqb, SFleb. by destruct (SFcompare _ _) as [[]|].
Qed.

End Float64Order.

(** ** Sorted rankings *)

Section Sorted.

Lemma IsSorted_cons a b r :
  IsSorted (a :: b :: r) →
  Float64.lt (weight b) (weight a) = false ∧ IsSorted (b :: r).
Proof.
  intros H. split.
  - specialize (H 0%nat). cbn in H.
    assert (Some (Float64.lt (weight b) (weight a)) = Some false) as [= ->]
      by (apply H; lia).
    done.
  - intros i Hi. apply (H (S i)). cbn in *. lia.
Qed.

(** In sorted rankings of numbers the last one has the greatest weight. *)
Lemma sorted_last_max r top :
  numbers r → IsSorted r → last r = Some top →
  ∀ x, x ∈ r → Float64.le (weight x) (weight top) = true.
Proof.
  induction r as [|a [|b r] IH]; intros Hn Hs Hl x Hx.
  - done.
  - apply list_elem_of_singleton in Hx. injection Hl as Hl. subst.
    apply le_refl. by inversion Hn.
  - apply IsSorted_cons in Hs as [Hab Hs].
    pose proof Hn as Hn'. inversion Hn' as [|?? Ha Hbr]; subst.
    assert (∀ y, y ∈ b :: r → Float64.le (weight y) (weight top) = true) as Htail
      by (apply IH; done).
    apply elem_of_cons in Hx as [->|Hx]; [|by apply Htail].
    eapply le_trans; [|apply Htail; left].
    apply lt_false_le; [done| |done]. by inversion Hbr.
Qed.

End Sorted.

(** ** Maps and the heap *)

Section Maps.

Lemma index_assign m k v : index (assign m k v) k = v.
Proof.
  induction m as [|[k' v'] m IH]; cbn.
  - by rewrite String.eqb_refl.
  - destruct (String.eqb_spec k k') as [->|Hne]; cbn.
    + by rewrite String.eqb_refl.
    + by destruct (String.eqb_spec k k').
Qed.

Lemma index_assign_ne m k k' v : k ≠ k' → index (assign m k v) k' = index m k'.
Proof.
  intros Hne. induction m as [|[k0 v0] m IH]; cbn.
  - by destruct (String.eqb_spec k' k) as [->|].
  - destruct (String.eqb_spec k k0) as [->|Hk]; cbn.
    + by destruct (String.eqb_spec k' k0) as [->|].
    + destruct (String.eqb_spec k' k0); [done|apply IH].
Qed.

(** The heap after [spec["nodeName"] = v]. *)
Definition assigned (h : heap) (sp : loc) (spm : gomap) (v : value) : heap :=
  <[sp := assign spm "nodeName" v]> h.

Lemma index_load_assigned h sp spm v l k :
  h !! sp = Some spm → k ≠ "nodeName" →
  index (load (assigned h sp spm v) l) k = index (load h l) k.
Proof.
  intros Hsp Hk. unfold load, assigned.
  destruct (decide (l = sp)) as [->|Hne].
  - rewrite lookup_insert_eq, Hsp. cbn. by apply index_assign_ne.
  - by rewrite lookup_insert_ne.
Qed.

Lemma field_assigned h sp spm v pod section key :
  h !! sp = Some spm → section ≠ "nodeName" → key ≠ "nodeName" →
  field (assigned h sp spm v) pod section key = field h pod section key.
Proof.
  intros Hsp Hs Hk. unfold field.
  rewrite index_load_assigned by done.
  destruct (index (load h pod) section); try done.
  by apply index_load_assigned.
Qed.

Lemma field_nodeName_assigned h sp spm v pod :
  has_spec h pod sp spm →
  field (assigned h sp spm v) pod "spec" "nodeName" = v.
Proof.
  intros [Hspec Hsp]. unfold field.
  rewrite index_load_assigned, Hspec by done.
  unfold load, assigned. rewrite lookup_insert_eq. cbn.
  apply index_assign.
Qed.

Lemma getMetadata_field key pod h :
  getMetadata key (MapRef pod) h =
  match field h pod "metadata" key with
  | Str u => Ok u
  | _ => Err (MalformedObject (MapRef pod))
  end.
Proof.
  unfold getMetadata, field.
  by destruct (index (load h pod) "metadata").
Qed.

Lemma getNodeName_field pod h :
  getNodeName pod h =
  match field h pod "spec" "nodeName" with
  | Str u => Ok u
  | _ => Err (MalformedPod (MapRef pod))
  end.
Proof.
  unfold getNodeName, field.
  by destruct (index (load h pod) "spec").
Qed.

Lemma rankingsOf_elem m x :
  x ∈ rankingsOf m ↔ (nodeName x, Float64 (weight x)) ∈ m.
Proof.
  unfold rankingsOf. rewrite list_elem_of_omap. split.
  - intros ([k v] & Hin & Hx). cbn in Hx. destruct v; try done.
    by injection Hx as <-.
  - intros Hin. eexists; split; [exact Hin|]. by destruct x.
Qed.

Lemma rankingsOf_nil m : weights m → rankingsOf m = [] → m = [].
Proof.
  intros Hw. destruct m as [|[k v] m]; [done|].
  inversion Hw as [|?? [w Hv] _]; subst. cbn in Hv. subst. done.
Qed.

Lemma rankingsOf_numbers m : numeric m → numbers (rankingsOf m).
Proof.
  unfold numeric, numbers. rewrite !Forall_forall.
  intros Hm x ([k v] & Hin & Hx)%list_elem_of_omap. cbn in Hx.
  destruct (Hm _ Hin) as (w & Hv & Hnan). cbn in Hv. subst.
  by injection Hx as <-.
Qed.

Lemma numeric_weights m : numeric m → weights m.
Proof. intros H. eapply Forall_impl; [exact H|]. intros ? (w & ? & _). eauto. Qed.

End Maps.

(** ** Running the calls *)

Ltac go :=
  repeat (progress (
    unfold mbind, Go_bind, mret, Go_ret, ret, panic, reads, emit, glog, defer,
      NewTransaction, Close, Write, documents, set_documents, Query, Do,
      store_index, assertMap, assertFloat64;
    cbn [objects data trace fst snd id forEach])).

Section Calls.

Context (E : Env).

Lemma recorded_nil σ : recorded σ [] = σ.
Proof. destruct σ. unfold recorded. cbn. by rewrite app_nil_r. Qed.

Lemma recorded_app σ evs evs' :
  recorded (recorded σ evs) evs' = recorded σ (evs ++ evs').
Proof. unfold recorded. cbn. by rewrite app_assoc. Qed.

Lemma appendRankings_weights m rs σ :
  weights m → appendRankings m rs σ = (Return (rs ++ rankingsOf m)%list, σ).
Proof.
  intros Hw. revert rs.
  induction Hw as [|[k v] m [w Hv] _ IH]; intros rs; cbn [appendRankings].
  - go. by rewrite app_nil_r.
  - cbn in Hv. subst. go. rewrite IH. by rewrite <- app_assoc.
Qed.

Lemma appendRankings_not_weights m rs σ :
  ¬ weights m →
  appendRankings m rs σ =
  (Panic "interface conversion: interface {} is not float64", σ).
Proof.
  revert rs. induction m as [|[k v] m IH]; intros rs Hw.
  - destruct Hw. constructor.
  - cbn [appendRankings]. destruct v; go; try done.
    apply IH. intros Hm. apply Hw. constructor; [cbn; eauto|done].
Qed.

(** [bindPod] returns, and all it leaves behind is the request it made. *)
Lemma bindPod_frame pod σ :
  ∃ r evs, bindPod E pod σ = (Return r, recorded σ evs).
Proof.
  unfold bindPod. go.
  destruct (getMetadata "name" _ _); [|exists (Some e), []; by rewrite recorded_nil].
  destruct (getNodeName _ _); [|exists (Some e), []; by rewrite recorded_nil].
  destruct (getMetadata "namespace" _ _); [|exists (Some e), []; by rewrite recorded_nil].
  destruct (http_NewRequest _ _ _ _); [|exists (Some e), []; by rewrite recorded_nil].
  destruct (clientFor E); [exists (Some e), []; by rewrite recorded_nil|].
  go. destruct (client_Do E a2) as [resp|e]; [|by exists (Some e), [EvDo a2]].
  destruct (_ >? _)%Z; by eexists _, [EvDo a2].
Qed.

(** What [bindPod] does when the pod document names the pod, its namespace
    and its node. *)
Lemma bindPod_named pod σ podName namespace node :
  field (objects σ) pod "metadata" "name" = Str podName →
  field (objects σ) pod "metadata" "namespace" = Str namespace →
  field (objects σ) pod "spec" "nodeName" = Str node →
  bindPod E pod σ =
  let req := bindingRequest E podName namespace node in
  match url_Parse E (URL req) with
  | Some err => (Return (Some err), σ)
  | None =>
      match clientFor E with
      | Some err => (Return (Some err), σ)
      | None =>
          match client_Do E req with
          | Err err => (Return (Some err), recorded σ [EvDo req])
          | Ok resp =>
              if (StatusCode resp >? StatusCreated)%Z
              then (Return (Some (httpErr E req resp)), recorded σ [EvDo req])
              else (Return None, recorded σ [EvDo req])
          end
      end
  end.
Proof.
  intros Hname Hns Hnode. unfold bindPod. go.
  rewrite getMetadata_field, Hname. go.
  rewrite getNodeName_field, Hnode. go.
  rewrite getMetadata_field, Hns. go.
  unfold http_NewRequest, bindingRequest. cbn [URL].
  destruct (url_Parse E _); [done|].
  destruct (clientFor E); [done|]. go.
  destruct (client_Do E _); [|done].
  by destruct (_ >? _)%Z.
Qed.

End Calls.

(** ** The scheduling attempt, case by case *)

Section Attempt.

Context (E : Env).

Lemma field_Str h pod section key u :
  field h pod section key = Str u →
  ∃ m, index (load h pod) section = MapRef m ∧ index (load h m) key = Str u.
Proof.
  unfold field. destruct (index (load h pod) section) eqn:Hs; try done. eauto.
Qed.

Lemma field_MapRef h pod section key m :
  index (load h pod) section = MapRef m →
  field h pod section key = index (load h m) key.
Proof. unfold field. by intros ->. Qed.

Ltac begin Huid :=
  let md := fresh "md" in
  let Hmd := fresh "Hmd" in
  let Hname := fresh "Hname" in
  pose proof Huid as Hmd; apply field_Str in Hmd as (md & Hmd & _);
  pose proof (field_MapRef _ _ _ "name" _ Hmd) as Hname;
  unfold schedulePod; go;
  unfold getUID; rewrite getMetadata_field, Huid; go;
  rewrite Hmd; go; rewrite <- Hname.

(** The oracle fails: the error is returned. *)
Lemma schedulePod_query_error pod σ uid err :
  field (objects σ) pod "metadata" "uid" = Str uid →
  topdown_Query E (data σ) (objects σ) pod = Err err →
  schedulePod E pod σ =
  (Return (Some err), recorded σ [EvNewTransaction; EvQuery pod; EvClose]).
Proof.
  intros Huid Hq. begin Huid. rewrite Hq. go.
  unfold recorded. cbn. by rewrite <- !app_assoc.
Qed.

(** The fit document is undefined. *)
Lemma schedulePod_undefined pod σ uid :
  field (objects σ) pod "metadata" "uid" = Str uid →
  topdown_Query E (data σ) (objects σ) pod = Ok Undefined →
  schedulePod E pod σ =
  (Return None,
   recorded σ [EvNewTransaction; EvQuery pod;
               EvLog Info (FitUndefined (field (objects σ) pod "metadata" "name"));
               EvClose]).
Proof.
  intros Huid Hq. begin Huid. rewrite Hq. go.
  unfold recorded. cbn. by rewrite <- !app_assoc.
Qed.

(** The fit document is not a map. *)
Lemma schedulePod_not_a_map pod σ uid v :
  field (objects σ) pod "metadata" "uid" = Str uid →
  topdown_Query E (data σ) (objects σ) pod = Ok (Val v) →
  (∀ m, v ≠ MapRef m) →
  schedulePod E pod σ =
  (Return None,
   recorded σ [EvNewTransaction; EvQuery pod;
               EvLog Info (FitMalformed (field (objects σ) pod "metadata" "name"));
               EvClose]).
Proof.
  intros Huid Hq Hv. begin Huid. rewrite Hq.
  destruct v; go; try (unfold recorded; cbn; by rewrite <- !app_assoc).
  by destruct (Hv l).
Qed.

(** The fit document is a map with a value that is not a float64. *)
Lemma schedulePod_not_weights pod σ uid m :
  field (objects σ) pod "metadata" "uid" = Str uid →
  topdown_Query E (data σ) (objects σ) pod = Ok (Val (MapRef m)) →
  ¬ weights (load (objects σ) m) →
  schedulePod E pod σ =
  (Panic "interface conversion: interface {} is not float64",
   recorded σ [EvNewTransaction; EvQuery pod; EvClose]).
Proof.
  intros Huid Hq Hw. begin Huid. rewrite Hq. go.
  rewrite appendRankings_not_weights by done.
  unfold recorded. cbn. by rewrite <- !app_assoc.
Qed.

(** The fit document is a map of weights and the sort leaves no ranking. *)
Lemma schedulePod_no_nodes pod σ uid m :
  field (objects σ) pod "metadata" "uid" = Str uid →
  topdown_Query E (data σ) (objects σ) pod = Ok (Val (MapRef m)) →
  weights (load (objects σ) m) →
  last (sort_Sort E (rankingsOf (load (objects σ) m))) = None →
  schedulePod E pod σ =
  (Return None,
   recorded σ [EvNewTransaction; EvQuery pod;
               EvLog Info (NoNodesAvailable (field (objects σ) pod "metadata" "name"));
               EvClose]).
Proof.
  intros Huid Hq Hw Hl. begin Huid. rewrite Hq. go.
  rewrite appendRankings_weights by done. cbn [app]. rewrite Hl. go.
  unfold recorded. cbn. by rewrite <- !app_assoc.
Qed.

(** A node is selected: the pod document is updated and written, and the
    binding decides how the attempt ends. *)
Lemma schedulePod_selected pod σ uid m top sp spm coll :
  field (objects σ) pod "metadata" "uid" = Str uid →
  topdown_Query E (data σ) (objects σ) pod = Ok (Val (MapRef m)) →
  weights (load (objects σ) m) →
  last (sort_Sort E (rankingsOf (load (objects σ) m))) = Some top →
  has_spec (objects σ) pod sp spm →
  data σ !! "pods" = Some coll →
  let podName := field (objects σ) pod "metadata" "name" in
  let node := nodeName top in
  let σ2 := {| objects := assigned (objects σ) sp spm (Str node);
               data := <["pods" := <[uid := MapRef pod]> coll]> (data σ);
               trace := trace σ ++ [EvNewTransaction; EvQuery pod;
                                    EvWrite AddOp ("pods", uid) (MapRef pod)] |} in
  ∃ r evs,
    bindPod E pod σ2 = (Return r, recorded σ2 evs) ∧
    schedulePod E pod σ =
    match r with
    | None =>
        (Return None,
         recorded σ2 (evs ++ [EvLog Info (Scheduled podName node); EvClose]))
    | Some err =>
        (Return (Some err),
         {| objects := objects σ2;
            data := <["pods" := delete uid coll]> (data σ);
            trace := trace σ2 ++ evs ++
                     [EvLog Error (BindFailed podName err);
                      EvWrite RemoveOp ("pods", uid) Nil; EvClose] |})
    end.
Proof.
  intros Huid Hq Hw Hl [Hspec Hsp] Hpods podName node σ2.
  destruct (bindPod_frame E pod σ2) as (r & evs & Hb).
  exists r, evs. split; [done|].
  begin Huid. rewrite Hq. go.
  rewrite appendRankings_weights by done. cbn [app]. rewrite Hl. go.
  rewrite Hspec. go. rewrite Hsp. go.
  unfold patchData at 1. cbn [fst snd]. rewrite Hpods. go.
  rewrite <- !app_assoc. cbn [app].
  fold (assigned (objects σ) sp spm (Str (nodeName top))).
  fold node. fold σ2. rewrite Hb.
  destruct r as [err|]; go.
  - unfold patchData, recorded. subst σ2. cbn [fst snd objects data trace].
    rewrite lookup_insert_eq, lookup_insert_eq. go.
    rewrite insert_insert_eq, delete_insert_eq.
    by rewrite <- !app_assoc.
  - unfold recorded. cbn. by rewrite <- !app_assoc.
Qed.

(** Whatever the store and the control plane answer, the assignment to the
    pod's [spec] is all that happens to the heap. *)
Lemma schedulePod_selected_objects pod σ uid m top sp spm :
  field (objects σ) pod "metadata" "uid" = Str uid →
  topdown_Query E (data σ) (objects σ) pod = Ok (Val (MapRef m)) →
  weights (load (objects σ) m) →
  last (sort_Sort E (rankingsOf (load (objects σ) m))) = Some top →
  has_spec (objects σ) pod sp spm →
  objects (schedulePod E pod σ).2 = assigned (objects σ) sp spm (Str (nodeName top)).
Proof.
  intros Huid Hq Hw Hl Hspec.
  destruct (data σ !! "pods") as [coll|] eqn:Hpods.
  - destruct (schedulePod_selected pod σ uid m top sp spm coll)
      as (r & evs & _ & ->); try done.
    by destruct r.
  - destruct Hspec as [Hspec Hsp].
    begin Huid. rewrite Hq. go.
    rewrite appendRankings_weights by done. cbn [app]. rewrite Hl. go.
    rewrite Hspec. go. rewrite Hsp. go.
    unfold patchData. cbn [fst snd]. rewrite Hpods. by go.
Qed.

End Attempt.

(** ** The sort of the sample cluster meets the library's contract *)

Section ClusterSort.

Import Cluster.

Lemma lt_asym x y : Float64.lt x y = true → Float64.lt y x = false.
Proof.
  unfold Float64.lt. rewrite !FloatAxioms.ltb_spec. unfold SFltb.
  destruct (SFcompare (Prim2SF x) (Prim2SF y)) as [c|] eqn:Hc; [|done].
  rewrite (SFcompare_swap _ _ _ Hc). by destruct c.
Qed.

Lemma IsSorted_nil : IsSorted [].
Proof. intros i Hi. cbn in Hi. lia. Qed.

Lemma IsSorted_one a : IsSorted [a].
Proof. intros i Hi. cbn in Hi. lia. Qed.

Lemma IsSorted_two a b r :
  Float64.lt (weight b) (weight a) = false → IsSorted (b :: r) →
  IsSorted (a :: b :: r).
Proof.
  intros Hba Hs [|i] Hi.
  - change (Some (Float64.lt (weight b) (weight a)) = Some false).
    by rewrite Hba.
  - apply (Hs i). cbn in *. lia.
Qed.

Lemma insert_perm x r : insert x r ≡ₚ x :: r.
Proof.
  induction r as [|y r IH]; cbn; [reflexivity|].
  destruct (Float64.lt (weight x) (weight y)); [reflexivity|].
  rewrite IH. apply Permutation_swap.
Qed.

Lemma insertion_sort_perm r : insertion_sort r ≡ₚ r.
Proof.
  induction r as [|x r IH]; cbn; [reflexivity|].
  unfold insertion_sort in IH. rewrite insert_perm, IH. reflexivity.
Qed.

Lemma insert_sorted x r : IsSorted r → IsSorted (insert x r).
Proof.
  induction r as [|y r IH]; intros Hs; cbn.
  - apply IsSorted_one.
  - destruct (Float64.lt (weight x) (weight y)) eqn:Hxy.
    + apply IsSorted_two; [by apply lt_asym|done].
    + destruct r as [|z r]; cbn.
      * apply IsSorted_two; [done|apply IsSorted_one].
      * apply IsSorted_cons in Hs as [Hzy Hs].
        specialize (IH Hs). cbn in IH.
        destruct (Float64.lt (weight x) (weight z));
          apply IsSorted_two; done.
Qed.

Lemma insertion_sort_sorted r : IsSorted (insertion_sort r).
Proof.
  induction r as [|x r IH]; cbn; [apply IsSorted_nil|].
  by apply insert_sorted.
Qed.

Lemma env_sort_permutes fit client answer : sort_permutes (env fit client answer).
Proof. intros r. apply insertion_sort_perm. Qed.

Lemma env_sort_sorts fit client answer : sort_sorts (env fit client answer).
Proof. intros r _. apply insertion_sort_sorted. Qed.

End ClusterSort.

(** * The claims *)

Section Claims.

Import Cluster.

Lemma writes_app t evs : writes (t ++ evs) = (writes t ++ writes evs)%list.
Proof. apply omap_app. Qed.

(** ** C9: a pod without an identity *)

(** C9. For every pod document whose [metadata.uid] is absent (no metadata
    object, no [uid] key, or a [uid] that is not a string), [schedulePod]
    returns the malformed-object error and leaves the state as it found it:
    no transaction was opened and nothing was written. *)
Theorem schedulePod_uid_absent (E : Env) (pod : loc) (σ : state) :
  ¬ is_string (field (objects σ) pod "metadata" "uid") →
  schedulePod E pod σ = (Return (Some (MalformedObject (MapRef pod))), σ).
Proof.
  intros Hno. unfold schedulePod. go.
  unfold getUID. rewrite getMetadata_field.
  destruct (field (objects σ) pod "metadata" "uid") eqn:Hf; try done.
  destruct Hno. by eexists.
Qed.

Lemma schedulePod_uid_absent_witness :
  schedulePod (env (Ok (Val (MapRef fit_one))) None (status 201)) stray start =
  (Return (Some (MalformedObject (MapRef stray))), start).
Proof.
  apply schedulePod_uid_absent.
  intros [s Hs]. vm_compute in Hs. discriminate Hs.
Defined.

(** ** C3: no decision *)

(** C3. For every pod with a string [metadata.uid], when the oracle's result
    is undefined or an empty mapping, [schedulePod] returns no error, the
    documents of the store and the heap are what they were, and the calls it
    made are: open a transaction, query, log one line, close -- no write. *)
Theorem schedulePod_no_decision (E : Env) (pod : loc) (σ : state) (uid : string) :
  sort_permutes E →
  field (objects σ) pod "metadata" "uid" = Str uid →
  (topdown_Query E (data σ) (objects σ) pod = Ok Undefined ∨
   ∃ m, topdown_Query E (data σ) (objects σ) pod = Ok (Val (MapRef m)) ∧
        load (objects σ) m = []) →
  ∃ σ' line,
    schedulePod E pod σ = (Return None, σ') ∧
    data σ' = data σ ∧
    objects σ' = objects σ ∧
    trace σ' = (trace σ ++ [EvNewTransaction; EvQuery pod; EvLog Info line; EvClose])%list ∧
    writes (trace σ') = writes (trace σ).
Proof.
  intros Hperm Huid [Hq|(m & Hq & Hm)].
  - eexists _, _. split; [by apply (schedulePod_undefined E pod σ uid)|].
    cbn. by rewrite writes_app, app_nil_r.
  - eexists _, _. split.
    + apply (schedulePod_no_nodes E pod σ uid m); try done.
      * rewrite Hm. constructor.
      * rewrite Hm. cbn. by rewrite (proj1 (Permutation_nil_r _) (Hperm [])).
    + cbn. by rewrite writes_app, app_nil_r.
Qed.

Lemma schedulePod_no_decision_witness :
  ∃ σ' line,
    schedulePod (env (Ok (Val (MapRef fit_empty))) None (status 201)) p1 start =
      (Return None, σ') ∧
    data σ' = data start ∧
    objects σ' = objects start ∧
    trace σ' = (trace start ++ [EvNewTransaction; EvQuery p1; EvLog Info line; EvClose])%list ∧
    writes (trace σ') = writes (trace start).
Proof.
  apply (schedulePod_no_decision _ p1 start "p1").
  - apply env_sort_permutes.
  - reflexivity.
  - right. exists fit_empty. split; reflexivity.
Defined.

(** ** C4: a mapping whose values are not numbers *)

(** C4. The code at the failing input: the pod of the scenarios has a uid and
    the oracle answers [{"node-1": "high"}].  The attempt does not log and
    return; it panics in the type assertion [v.(float64)], after the query
    and before any write. *)
Theorem schedulePod_string_weight_panics :
  schedulePod (env (Ok (Val (MapRef fit_string))) None (status 201)) p1 start =
  (Panic "interface conversion: interface {} is not float64",
   recorded start [EvNewTransaction; EvQuery p1; EvClose]).
Proof.
  apply (schedulePod_not_weights _ p1 start "p1" fit_string); try reflexivity.
  intros Hw. inversion Hw as [|?? [w Hv] _]. discriminate Hv.
Qed.

(** ** C6: incremental events of unplaced pods *)

(** C6. For an Incremental event routed to [schedule], the scheduling attempt
    is made exactly when the event is [added]: then [schedule] is the attempt
    on the event's object; on [modified] and [deleted] it returns no error and
    leaves the state as it found it (no call, no write). *)
Theorem schedule_sync_added_only (E : Env) (resourceType : string)
    (kind : syncType) (Object : loc) (σ : state) :
  (kind = added →
   schedule E resourceType (sync kind Object) σ = schedulePod E Object σ) ∧
  (kind ≠ added →
   schedule E resourceType (sync kind Object) σ = (Return None, σ)).
Proof.
  split.
  - by intros ->.
  - by destruct kind.
Qed.

(** ** C8 and C7: the patch action *)

Lemma getUID_uidOf item h :
  getUID item h =
  match uidOf h item with
  | Some u => Ok u
  | None => Err (MalformedObject item)
  end.
Proof.
  destruct item; try done. unfold getUID, uidOf.
  rewrite getMetadata_field. by destruct (field h l "metadata" "uid").
Qed.

(** One upsert: a transaction of its own around one add. *)
Lemma patchOp_add resourceType item σ uid coll :
  uidOf (objects σ) item = Some uid →
  data σ !! resourceType = Some coll →
  patchOp resourceType AddOp item σ =
  (Return None,
   {| objects := objects σ;
      data := <[resourceType := <[uid := item]> coll]> (data σ);
      trace := trace σ ++ [EvNewTransaction;
                           EvWrite AddOp (resourceType, uid) item; EvClose] |}).
Proof.
  intros Huid Hroot. unfold patchOp. go.
  rewrite getUID_uidOf, Huid. go.
  unfold patchData. cbn [fst snd]. rewrite Hroot. go.
  by rewrite <- !app_assoc.
Qed.

Lemma patchOp_add_no_root resourceType item σ uid :
  uidOf (objects σ) item = Some uid →
  data σ !! resourceType = None →
  patchOp resourceType AddOp item σ =
  (Return (Some (NotFound (resourceType, uid))),
   recorded σ [EvNewTransaction; EvWrite AddOp (resourceType, uid) item; EvClose]).
Proof.
  intros Huid Hroot. unfold patchOp. go.
  rewrite getUID_uidOf, Huid. go.
  unfold patchData. cbn [fst snd]. rewrite Hroot. go.
  unfold recorded. cbn. by rewrite <- !app_assoc.
Qed.

Lemma patchOp_no_uid resourceType op item σ :
  uidOf (objects σ) item = None →
  patchOp resourceType op item σ = (Return (Some (MalformedObject item)), σ).
Proof.
  intros Huid. unfold patchOp. go. by rewrite getUID_uidOf, Huid.
Qed.

(** C8. Applying [patch] twice to the same Incremental [added] event leaves
    the store (and the heap) as one application leaves it, with the same
    result.  When the event's object has a string [metadata.uid], each
    application makes one write, the add of that object at
    [data.<resourceType>[uid]], so the second write is the add of the same
    document at the same path; with the root document present both return
    no error and the collection is the old one with the object stored under
    its uid -- one entry for the uid, not two.  Without the root document
    both adds fail and the store stays as it was; without a uid nothing is
    written at all. *)
Theorem patch_added_twice (resourceType : string) (Object : loc) (σ : state) :
  let once := patch resourceType (sync added Object) σ in
  let twice := patch resourceType (sync added Object) once.2 in
  (twice.1 = once.1 ∧
   data twice.2 = data once.2 ∧
   objects twice.2 = objects once.2 ∧
   ∃ evs, trace once.2 = (trace σ ++ evs)%list ∧
          trace twice.2 = (trace once.2 ++ evs)%list) ∧
  (uidOf (objects σ) (MapRef Object) = None →
   once = (Return (Some (MalformedObject (MapRef Object))), σ)) ∧
  (∀ uid, uidOf (objects σ) (MapRef Object) = Some uid →
     let w := (AddOp, (resourceType, uid), MapRef Object) in
     writes (trace once.2) = (writes (trace σ) ++ [w])%list ∧
     writes (trace twice.2) = (writes (trace σ) ++ [w; w])%list ∧
     (∀ coll, data σ !! resourceType = Some coll →
        once.1 = Return None ∧
        data once.2 = <[resourceType := <[uid := MapRef Object]> coll]> (data σ) ∧
        data twice.2 = <[resourceType := <[uid := MapRef Object]> coll]> (data σ)) ∧
     (data σ !! resourceType = None →
        once.1 = Return (Some (NotFound (resourceType, uid))) ∧
        data twice.2 = data σ)).
Proof.
  cbn [patch].
  destruct (uidOf (objects σ) (MapRef Object)) as [uid|] eqn:Huid.
  - destruct (data σ !! resourceType) as [coll|] eqn:Hroot.
    + rewrite (patchOp_add _ _ σ uid coll) by done. cbn [fst snd].
      erewrite patchOp_add; [|exact Huid|by apply lookup_insert_eq].
      cbn [fst snd objects data trace].
      rewrite !insert_insert_eq.
      split; [|split; [done|]].
      * do 3 (split; [done|]). eexists. split; reflexivity.
      * intros ? [= <-]. cbn zeta. rewrite !writes_app. cbn.
        split; [done|]. split; [by rewrite <- app_assoc|].
        split; [|done]. by intros ? [= <-].
    + rewrite (patchOp_add_no_root _ _ σ uid) by done. cbn [fst snd].
      rewrite (patchOp_add_no_root _ _ _ uid) by done.
      cbn [fst snd objects data trace recorded].
      split; [|split; [done|]].
      * do 3 (split; [done|]). eexists. split; reflexivity.
      * intros ? [= <-]. cbn zeta. rewrite !writes_app. cbn.
        split; [done|]. split; [by rewrite <- app_assoc|].
        split; [done|]. done.
  - rewrite (patchOp_no_uid _ _ _ σ) by done. cbn [fst snd].
    rewrite (patchOp_no_uid _ _ _ σ) by done. cbn [fst snd].
    split; [|split; [done|done]].
    do 3 (split; [done|]). exists []. by rewrite app_nil_r.
Qed.

(** The node of the sample cluster, added twice to the empty [nodes]. *)
Lemma patch_added_twice_witness :
  let once := patch "nodes" (sync added node2) start in
  let twice := patch "nodes" (sync added node2) once.2 in
  twice.1 = Return None ∧
  data twice.2 = <["nodes" := <["n2" := MapRef node2]> ∅]> (data start) ∧
  writes (trace twice.2) =
    [(AddOp, ("nodes", "n2"), MapRef node2); (AddOp, ("nodes", "n2"), MapRef node2)].
Proof.
  destruct (patch_added_twice "nodes" node2 start) as ((Hr & _) & _ & H).
  destruct (H "n2" eq_refl) as (_ & Hw & Hroot & _).
  destruct (Hroot ∅ eq_refl) as (Hone & _ & Hd).
  split; [by rewrite Hr|]. split; [exact Hd|exact Hw].
Defined.

(** A snapshot whose items all have a uid, into an existing root document:
    one upsert per item, applied in the order of the snapshot. *)
Lemma patch_resync_all resourceType items : ∀ σ coll,
  data σ !! resourceType = Some coll →
  Forall (λ item, is_Some (uidOf (objects σ) item)) items →
  ∃ σ' ws,
    patch resourceType (resync items) σ = (Return None, σ') ∧
    objects σ' = objects σ ∧
    data σ' = <[resourceType := upserted coll ws]> (data σ) ∧
    writes (trace σ') = (writes (trace σ) ++ ws)%list ∧
    Forall2 (upserts resourceType (objects σ)) items ws.
Proof.
  cbn [patch]. induction items as [|item items IH]; intros σ coll Hroot Hall.
  - exists σ, []. cbn. rewrite app_nil_r, insert_id by done.
    repeat split; done || constructor.
  - inversion Hall as [|?? [uid Huid] Hrest]; subst.
    cbn [forEach]. go.
    rewrite (patchOp_add _ _ σ uid coll) by done.
    set (σ1 := {| objects := objects σ; data := _; trace := _ |}).
    destruct (IH σ1 (<[uid := item]> coll)) as (σ' & ws & Hrun & Hobj & Hdata & Hw & Hups).
    { apply lookup_insert_eq. }
    { done. }
    exists σ', ((AddOp, (resourceType, uid), item) :: ws).
    split; [done|]. split; [done|]. split; [|split].
    + rewrite Hdata. subst σ1. cbn. by rewrite insert_insert_eq.
    + rewrite Hw. subst σ1. cbn [trace]. rewrite writes_app. cbn.
      by rewrite <- app_assoc.
    + constructor; [by exists uid|done].
Qed.

Lemma upserts_fmap resourceType h items ws :
  Forall2 (upserts resourceType h) items ws →
  ws = (λ item, (AddOp, (resourceType, default "" (uidOf h item)), item)) <$> items.
Proof.
  induction 1 as [|item w items ws (uid & Huid & ->) _ IH]; [done|].
  cbn. by rewrite Huid, IH.
Qed.

(** C7, as the code has it.  When every item of the snapshot has a string
    [metadata.uid] and the root document of the resource type exists, [patch]
    returns no error and its writes are one upsert per item, each an add at
    [data.<resourceType>[uid]] carrying the item, applied in the order of the
    snapshot; another order of the same items gives the same upserts in that
    other order. *)
Theorem patch_resync_upserts (resourceType : string) (items : list value)
    (σ : state) (coll : gmap string value) :
  data σ !! resourceType = Some coll →
  Forall (λ item, is_Some (uidOf (objects σ) item)) items →
  ∃ σ' ws,
    patch resourceType (resync items) σ = (Return None, σ') ∧
    writes (trace σ') = (writes (trace σ) ++ ws)%list ∧
    Forall2 (upserts resourceType (objects σ)) items ws ∧
    data σ' = <[resourceType := upserted coll ws]> (data σ) ∧
    ∀ items', items' ≡ₚ items →
      ∃ σ'' ws',
        patch resourceType (resync items') σ = (Return None, σ'') ∧
        writes (trace σ'') = (writes (trace σ) ++ ws')%list ∧
        ws' ≡ₚ ws.
Proof.
  intros Hroot Hall.
  destruct (patch_resync_all resourceType items σ coll Hroot Hall)
    as (σ' & ws & Hrun & _ & Hdata & Hw & Hups).
  exists σ', ws. do 4 (split; [done|]).
  intros items' Hperm.
  destruct (patch_resync_all resourceType items' σ coll Hroot)
    as (σ'' & ws' & Hrun' & _ & _ & Hw' & Hups').
  { by rewrite Hperm. }
  exists σ'', ws'. do 2 (split; [done|]).
  rewrite (upserts_fmap _ _ _ _ Hups), (upserts_fmap _ _ _ _ Hups').
  by apply fmap_Permutation.
Qed.

Lemma patch_resync_upserts_witness :
  ∃ σ' ws,
    patch "nodes" (resync [MapRef node2; MapRef p1]) start = (Return None, σ') ∧
    writes (trace σ') = (writes (trace start) ++ ws)%list ∧
    Forall2 (upserts "nodes" (objects start)) [MapRef node2; MapRef p1] ws ∧
    data σ' = <["nodes" := upserted ∅ ws]> (data start) ∧
    ∀ items', items' ≡ₚ [MapRef node2; MapRef p1] →
      ∃ σ'' ws',
        patch "nodes" (resync items') start = (Return None, σ'') ∧
        writes (trace σ'') = (writes (trace start) ++ ws')%list ∧
        ws' ≡ₚ ws.
Proof.
  apply (patch_resync_upserts "nodes" [MapRef node2; MapRef p1] start ∅).
  - reflexivity.
  - repeat constructor; eexists; reflexivity.
Defined.

(** C7, as stated, fails: a snapshot whose first item has no uid.  The
    second item has the uid ["n2"], and gets no upsert: [patch] returns the
    error of the first item and writes nothing. *)
Lemma patch_resync_stops_at_error :
  let r := patch "nodes" (resync [MapRef stray; MapRef node2]) start in
  uidOf (objects start) (MapRef node2) = Some "n2" ∧
  r.1 = Return (Some (MalformedObject (MapRef stray))) ∧
  writes (trace r.2) = [] ∧
  data r.2 = data start.
Proof. by vm_compute. Qed.

(** ** C5: when the binding fails *)

Lemma is_string_dec v : is_string v ∨ ¬ is_string v.
Proof. destruct v; (left; by eexists) || (right; by intros [? ?]). Qed.

Lemma bindPod_no_name E pod σ :
  ¬ is_string (field (objects σ) pod "metadata" "name") →
  bindPod E pod σ = (Return (Some (MalformedObject (MapRef pod))), σ).
Proof.
  intros Hno. unfold bindPod. go. rewrite getMetadata_field.
  destruct (field _ _ _ "name"); try done. destruct Hno. by eexists.
Qed.

Lemma bindPod_no_nodeName E pod σ podName :
  field (objects σ) pod "metadata" "name" = Str podName →
  ¬ is_string (field (objects σ) pod "spec" "nodeName") →
  bindPod E pod σ = (Return (Some (MalformedPod (MapRef pod))), σ).
Proof.
  intros Hname Hno. unfold bindPod. go. rewrite getMetadata_field, Hname. go.
  rewrite getNodeName_field.
  destruct (field _ _ _ "nodeName"); try done. destruct Hno. by eexists.
Qed.

Lemma bindPod_no_namespace E pod σ podName node :
  field (objects σ) pod "metadata" "name" = Str podName →
  field (objects σ) pod "spec" "nodeName" = Str node →
  ¬ is_string (field (objects σ) pod "metadata" "namespace") →
  bindPod E pod σ = (Return (Some (MalformedObject (MapRef pod))), σ).
Proof.
  intros Hname Hnode Hno. unfold bindPod. go.
  rewrite getMetadata_field, Hname. go.
  rewrite getNodeName_field, Hnode. go.
  rewrite getMetadata_field.
  destruct (field _ _ _ "namespace"); try done. destruct Hno. by eexists.
Qed.

(** C5, as the code has it.  [bindPod] always returns, and it returns an
    error exactly when the pod document lacks a string [metadata.name],
    [spec.nodeName] or [metadata.namespace], or the URL of the request does
    not parse, or no client can be made for the configuration, or [client.Do]
    fails, or the status of the response is above 201.  So a response with a
    status of at most 201 is success. *)
Theorem bindPod_error_iff (E : Env) (pod : loc) (σ : state) :
  (∃ r, (bindPod E pod σ).1 = Return r) ∧
  ((∃ err, (bindPod E pod σ).1 = Return (Some err)) ↔
   ¬ is_string (field (objects σ) pod "metadata" "name") ∨
   ¬ is_string (field (objects σ) pod "spec" "nodeName") ∨
   ¬ is_string (field (objects σ) pod "metadata" "namespace") ∨
   ∃ podName node namespace,
     field (objects σ) pod "metadata" "name" = Str podName ∧
     field (objects σ) pod "spec" "nodeName" = Str node ∧
     field (objects σ) pod "metadata" "namespace" = Str namespace ∧
     let req := bindingRequest E podName namespace node in
     (is_Some (url_Parse E (URL req)) ∨
      is_Some (clientFor E) ∨
      (∃ err, client_Do E req = Err err) ∨
      (∃ resp, client_Do E req = Ok resp ∧ (StatusCode resp > StatusCreated)%Z))).
Proof.
  split.
  { destruct (bindPod_frame E pod σ) as (r & evs & ->). by exists r. }
  destruct (is_string_dec (field (objects σ) pod "metadata" "name"))
    as [[podName Hname]|Hname];
    [|rewrite bindPod_no_name by done; split; eauto].
  destruct (is_string_dec (field (objects σ) pod "spec" "nodeName"))
    as [[node Hnode]|Hnode];
    [|rewrite (bindPod_no_nodeName _ _ _ podName) by done; split; eauto].
  destruct (is_string_dec (field (objects σ) pod "metadata" "namespace"))
    as [[namespace Hns]|Hns];
    [|rewrite (bindPod_no_namespace _ _ _ podName node) by done; split; eauto].
  rewrite (bindPod_named E pod σ podName namespace node) by done.
  assert (∀ P : string → string → string → Prop,
    (¬ is_string (field (objects σ) pod "metadata" "name") ∨
     ¬ is_string (field (objects σ) pod "spec" "nodeName") ∨
     ¬ is_string (field (objects σ) pod "metadata" "namespace") ∨
     ∃ a b c,
       field (objects σ) pod "metadata" "name" = Str a ∧
       field (objects σ) pod "spec" "nodeName" = Str b ∧
       field (objects σ) pod "metadata" "namespace" = Str c ∧ P a b c) ↔
    P podName node namespace) as ->.
  { intros P. split.
    - intros [H|[H|[H|(a & b & c & Ha & Hb & Hc & HP)]]];
        try (destruct H; by eexists).
      rewrite Hname in Ha. rewrite Hnode in Hb. rewrite Hns in Hc.
      by injection Ha as <-; injection Hb as <-; injection Hc as <-.
    - intros HP. do 3 right. by exists podName, node, namespace. }
  cbn zeta.
  destruct (url_Parse E _) as [e|]; [split; eauto|].
  destruct (clientFor E) as [e|]; [split; eauto|].
  destruct (client_Do E _) as [resp|e]; [|split; eauto 6].
  destruct (Z.gtb_spec (StatusCode resp) StatusCreated) as [Hgt|Hle]; cbn [fst].
  - split; [|eauto]. intros _. do 3 right. exists resp. split; [done|lia].
  - split; [by intros [? ?]|].
    intros [[? [=]]|[[? [=]]|[[? [=]]|(resp' & [= <-] & Hgt)]]]. lia.
Qed.

(** C5, as stated, fails: the pod names itself, its namespace and its node,
    the control plane would answer every request with 200, and [bindPod]
    returns an error without sending a request, because no client could be
    made for the configuration. *)
Lemma bindPod_fails_without_client :
  let E := env (Ok Undefined) (Some (Failure "no client")) (status 200) in
  (bindPod E p2 start).1 = Return (Some (Failure "no client")) ∧
  field (objects start) p2 "metadata" "name" = Str "b" ∧
  field (objects start) p2 "metadata" "namespace" = Str "ns" ∧
  field (objects start) p2 "spec" "nodeName" = Str "node-1" ∧
  (∀ req, client_Do E req = Ok {| StatusCode := 200 |}) ∧
  trace (bindPod E p2 start).2 = [].
Proof. by vm_compute. Qed.

(** ** C2, C10 and C1: a node is selected *)

(** From a mapping that is not empty the sort leaves a last ranking. *)
Lemma selected_exists E m :
  sort_permutes E → weights m → m ≠ [] →
  ∃ top, last (sort_Sort E (rankingsOf m)) = Some top.
Proof.
  intros Hperm Hw Hne. apply last_is_Some. intros Hnil.
  apply Hne, rankingsOf_nil; [done|].
  apply Permutation_nil_r. by rewrite <- (Hperm (rankingsOf m)), Hnil.
Qed.

(** The last ranking of the sorted rankings is an entry of the mapping, and
    no entry outweighs it. *)
Lemma selected_max E m top :
  sort_permutes E → sort_sorts E → numeric m →
  last (sort_Sort E (rankingsOf m)) = Some top →
  (nodeName top, Float64 (weight top)) ∈ m ∧
  ∀ node w, (node, Float64 w) ∈ m → Float64.le w (weight top) = true.
Proof.
  intros Hperm Hsort Hnum Hlast.
  pose proof (rankingsOf_numbers m Hnum) as Hn.
  split.
  - apply rankingsOf_elem. rewrite <- (Hperm (rankingsOf m)).
    by apply last_Some_elem_of.
  - intros node w Hin.
    assert (numbers (sort_Sort E (rankingsOf m))) as Hn'.
    { unfold numbers. by rewrite (Hperm (rankingsOf m)). }
    apply (sorted_last_max (sort_Sort E (rankingsOf m)) top Hn' (Hsort _ Hn) Hlast
             {| nodeName := node; weight := w |}).
    rewrite (Hperm (rankingsOf m)). by apply rankingsOf_elem.
Qed.

(** C2. For every pod with a string [metadata.uid] and a [spec] object, when
    the oracle answers with a mapping that is not empty and whose values are
    numbers, the node that [schedulePod] writes into the pod's
    [spec.nodeName] is a key of the mapping whose weight no weight of the
    mapping exceeds. *)
Theorem schedulePod_selects_max (E : Env) (pod : loc) (σ : state)
    (uid : string) (m sp : loc) (spm : gomap) :
  sort_permutes E → sort_sorts E →
  field (objects σ) pod "metadata" "uid" = Str uid →
  topdown_Query E (data σ) (objects σ) pod = Ok (Val (MapRef m)) →
  numeric (load (objects σ) m) →
  load (objects σ) m ≠ [] →
  has_spec (objects σ) pod sp spm →
  ∃ node w,
    (node, Float64 w) ∈ load (objects σ) m ∧
    (∀ node' w', (node', Float64 w') ∈ load (objects σ) m →
                 Float64.le w' w = true) ∧
    field (objects (schedulePod E pod σ).2) pod "spec" "nodeName" = Str node.
Proof.
  intros Hperm Hsort Huid Hq Hnum Hne Hspec.
  pose proof (numeric_weights _ Hnum) as Hw.
  destruct (selected_exists E _ Hperm Hw Hne) as [top Hlast].
  destruct (selected_max E _ top Hperm Hsort Hnum Hlast) as [Hin Hmax].
  exists (nodeName top), (weight top). split; [done|]. split; [done|].
  rewrite (schedulePod_selected_objects E pod σ uid m top sp spm) by done.
  by apply field_nodeName_assigned.
Qed.

Lemma schedulePod_selects_max_witness :
  ∃ node w,
    (node, Float64 w) ∈ load (objects start) fit_three ∧
    (∀ node' w', (node', Float64 w') ∈ load (objects start) fit_three →
                 Float64.le w' w = true) ∧
    field (objects (schedulePod (env (Ok (Val (MapRef fit_three))) None (status 201))
                      p1 start).2) p1 "spec" "nodeName" = Str node.
Proof.
  apply (schedulePod_selects_max _ p1 start "p1" fit_three 3%positive []).
  - apply env_sort_permutes.
  - apply env_sort_sorts.
  - reflexivity.
  - reflexivity.
  - repeat constructor; eexists; split; reflexivity.
  - discriminate.
  - split; reflexivity.
Defined.

(** C10. [schedulePod] updates the pod document it is given through the
    caller's reference: once the oracle's mapping (of float64 values, not
    empty) yields a node, the [spec] object of the pod has [nodeName] set to
    that node when [schedulePod] is left, however the write to the store and
    the binding went -- nothing puts the old value back, also not where the
    binding fails and the entry of the store is removed. *)
Theorem schedulePod_updates_pod (E : Env) (pod : loc) (σ : state)
    (uid : string) (m sp : loc) (spm : gomap) :
  sort_permutes E →
  field (objects σ) pod "metadata" "uid" = Str uid →
  topdown_Query E (data σ) (objects σ) pod = Ok (Val (MapRef m)) →
  weights (load (objects σ) m) →
  load (objects σ) m ≠ [] →
  has_spec (objects σ) pod sp spm →
  ∃ top,
    last (sort_Sort E (rankingsOf (load (objects σ) m))) = Some top ∧
    objects (schedulePod E pod σ).2 !! sp =
      Some (assign spm "nodeName" (Str (nodeName top))) ∧
    getNodeName pod (objects (schedulePod E pod σ).2) = Ok (nodeName top).
Proof.
  intros Hperm Huid Hq Hw Hne Hspec.
  destruct (selected_exists E _ Hperm Hw Hne) as [top Hlast].
  exists top. split; [done|].
  rewrite (schedulePod_selected_objects E pod σ uid m top sp spm) by done.
  split.
  - apply lookup_insert_eq.
  - by rewrite getNodeName_field, field_nodeName_assigned.
Qed.

(** The binding is turned down with status 500: the entry of the store is
    gone and the pod document still names the node. *)
Lemma schedulePod_updates_pod_witness :
  (∃ top,
     last (sort_Sort (env (Ok (Val (MapRef fit_one))) None (status 500))
             (rankingsOf (load (objects start) fit_one))) = Some top ∧
     objects (schedulePod (env (Ok (Val (MapRef fit_one))) None (status 500))
                p1 start).2 !! 3%positive =
       Some (assign [] "nodeName" (Str (nodeName top))) ∧
     getNodeName p1
       (objects (schedulePod (env (Ok (Val (MapRef fit_one))) None (status 500))
                   p1 start).2) = Ok (nodeName top)) ∧
  data (schedulePod (env (Ok (Val (MapRef fit_one))) None (status 500))
          p1 start).2 !! "pods" = Some ∅.
Proof.
  split.
  - apply (schedulePod_updates_pod _ p1 start "p1" fit_one 3%positive []).
    + apply env_sort_permutes.
    + reflexivity.
    + reflexivity.
    + repeat constructor; eexists; reflexivity.
    + discriminate.
    + split; reflexivity.
  - reflexivity.
Defined.

(** C1. For every scheduling attempt in which the oracle answers with a
    mapping of weights that is not empty, the pod document is written to the
    store, and the control plane then turns the binding of the selected node
    down with [err] ([client.Do] fails, or the status is above 201):
    [schedulePod] returns [err], and when it returns the store has no entry
    at [data.pods[uid]]; its writes were the add of the pod and the remove
    at the same path. *)
Theorem schedulePod_bind_failure (E : Env) (pod : loc) (σ : state)
    (uid : string) (m sp : loc) (spm : gomap) (coll : gmap string value)
    (podName namespace : string) (err : error) :
  sort_permutes E →
  field (objects σ) pod "metadata" "uid" = Str uid →
  topdown_Query E (data σ) (objects σ) pod = Ok (Val (MapRef m)) →
  weights (load (objects σ) m) →
  load (objects σ) m ≠ [] →
  has_spec (objects σ) pod sp spm →
  data σ !! "pods" = Some coll →
  field (objects σ) pod "metadata" "name" = Str podName →
  field (objects σ) pod "metadata" "namespace" = Str namespace →
  url_Parse E (baseURLFor E ++ "/namespaces/" ++ namespace ++ "/bindings") = None →
  clientFor E = None →
  (∀ top, last (sort_Sort E (rankingsOf (load (objects σ) m))) = Some top →
          rejects E (bindingRequest E podName namespace (nodeName top)) err) →
  ∃ σ' coll',
    schedulePod E pod σ = (Return (Some err), σ') ∧
    data σ' !! "pods" = Some coll' ∧ coll' !! uid = None ∧
    data σ' = <["pods" := delete uid coll]> (data σ) ∧
    writes (trace σ') =
      (writes (trace σ) ++
       [(AddOp, ("pods", uid), MapRef pod); (RemoveOp, ("pods", uid), Nil)])%list.
Proof.
  intros Hperm Huid Hq Hw Hne Hspec Hpods Hname Hns Hurl Hclient Hrej.
  destruct (selected_exists E _ Hperm Hw Hne) as [top Hlast].
  specialize (Hrej top Hlast).
  destruct (schedulePod_selected E pod σ uid m top sp spm coll)
    as (r & evs & Hb & ->); try done.
  pose proof Hspec as [_ Hsp].
  rewrite (bindPod_named E pod _ podName namespace (nodeName top)) in Hb; cycle 1.
  { cbn [objects]. by rewrite field_assigned. }
  { cbn [objects]. by rewrite field_assigned. }
  { cbn [objects]. by apply field_nodeName_assigned. }
  cbn zeta in Hb. cbn [bindingRequest URL] in Hb. rewrite Hurl, Hclient in Hb.
  assert (r = Some err ∧
          evs = [EvDo (bindingRequest E podName namespace (nodeName top))])
    as [-> ->].
  { fold (bindingRequest E podName namespace (nodeName top)) in Hb.
    destruct Hrej as [Hdo|(resp & Hdo & Hgt & ->)]; rewrite Hdo in Hb.
    - injection Hb as <- Ht. split; [done|]. by apply app_inv_head in Ht.
    - destruct (Z.gtb_spec (StatusCode resp) StatusCreated); [|lia].
      injection Hb as <- Ht. split; [done|]. by apply app_inv_head in Ht. }
  eexists _, (delete uid coll). split; [done|]. cbn [data trace].
  split; [apply lookup_insert_eq|]. split; [apply lookup_delete_eq|].
  split; [done|].
  rewrite !writes_app. cbn. by rewrite <- app_assoc.
Qed.

Lemma schedulePod_bind_failure_witness :
  ∃ σ' coll',
    schedulePod (env (Ok (Val (MapRef fit_one))) None (status 500)) p1 start =
      (Return (Some (Failure "bad response")), σ') ∧
    data σ' !! "pods" = Some coll' ∧ coll' !! "p1" = None ∧
    data σ' = <["pods" := delete "p1" ∅]> (data start) ∧
    writes (trace σ') =
      (writes (trace start) ++
       [(AddOp, ("pods", "p1"), MapRef p1); (RemoveOp, ("pods", "p1"), Nil)])%list.
Proof.
  apply (schedulePod_bind_failure _ p1 start "p1" fit_one 3%positive [] ∅ "a" "ns").
  - apply env_sort_permutes.
  - reflexivity.
  - reflexivity.
  - repeat constructor; eexists; reflexivity.
  - discriminate.
  - split; reflexivity.
  - reflexivity.
  - reflexivity.
  - reflexivity.
  - reflexivity.
  - reflexivity.
  - intros top _. right. eexists. split; [reflexivity|]. split; [|reflexivity].
    reflexivity.
Defined.

End Claims.

(** * More of the package *)

(** ** [init] and [parsePath] *)

Definition baseDocs : list string :=
  ["pods"; "nodes"; "replicationcontrollers"; "services"].

(** [s.store.Write(txn, storage.AddOp, data.<root>, map[string]interface{}{})]:
    an add one level above the collections, which sets the root document to
    the empty collection.  The trace keeps the writes at [data.<root>[<key>]]
    only. *)
Definition WriteRoot (txn : Transaction) (root : string) : Go (option error) :=
  d ← documents;
  set_documents (<[root := ∅]> d);;
  ret None.

Definition init : Go (option error) :=
  t ← NewTransaction;
  match t with
  | Err err => ret (Some err)
  | Ok txn => defer (Close txn) (forEach (WriteRoot txn) baseDocs)
  end.

(** How a command of [main.go] ends: it goes on, [glog.Fatalf] ends the
    process, or it panics. *)
Inductive exit (A : Type) :=
| Done (a : A)
| Fatal (msg : string)
| Crash (reason : string).
Arguments Done {A} a.
Arguments Fatal {A} msg.
Arguments Crash {A} reason.

(** [strings.Split(s, sep)] for a separator of one byte. *)
Fixpoint Split (sep : Ascii.ascii) (s : string) : list string :=
  match s with
  | EmptyString => [EmptyString]
  | String c rest =>
      if Ascii.eqb c sep then EmptyString :: Split sep rest
      else match Split sep rest with
           | h :: t => String c h :: t
           | [] => [String c EmptyString]
           end
  end.

Definition slash : Ascii.ascii := Ascii.ascii_of_nat 47.

Definition parsePath (p : string) : exit (list value) :=
  match p with
  | EmptyString => Crash "index out of range"               (* p[0] *)
  | String c rest =>
      if negb (Ascii.eqb c slash) then Fatal ("Invalid path: " ++ p)
      else Done (Str <$> Split slash rest)
  end.

(** [strings.Join(parts, sep)], to say what [Split] keeps. *)
Fixpoint Join (sep : Ascii.ascii) (parts : list string) : string :=
  match parts with
  | [] => EmptyString
  | [x] => x
  | x :: rest => x ++ String sep (Join sep rest)
  end.

Fixpoint contains (sep : Ascii.ascii) (s : string) : bool :=
  match s with
  | EmptyString => false
  | String c rest => Ascii.eqb c sep || contains sep rest
  end.

(** ** The rankings as [sort.Interface] *)

Section Rankings.

Lemma lt_le x y : Float64.lt x y = true → Float64.le x y = true.
Proof.
  unfold Float64.lt, Float64.le.
  rewrite FloatAxioms.ltb_spec, FloatAxioms.leb_spec. unfold SFltb, SFleb.
  by destruct (SFcompare _ _) as [[]|].
Qed.

Lemma lt_le_false x y : Float64.lt x y = true → Float64.le y x = false.
Proof.
  unfold Float64.lt, Float64.le.
  rewrite FloatAxioms.ltb_spec, FloatAxioms.leb_spec. unfold SFltb, SFleb.
  destruct (SFcompare (Prim2SF x) (Prim2SF y)) as [c|] eqn:Hc; [|done].
  rewrite (SFcompare_swap _ _ _ Hc). by destruct c.
Qed.

Lemma lt_irrefl x : Float64.lt x x = false.
Proof.
  destruct (Float64.lt x x) eqn:H; [|done].
  by rewrite (lt_asym _ _ H) in H.
Qed.

Lemma lt_trans x y z :
  Float64.is_nan x = false → Float64.is_nan z = false →
  Float64.lt x y = true → Float64.lt y z = true → Float64.lt x z = true.
Proof.
  intros Hx Hz Hxy Hyz.
  destruct (Float64.lt x z) eqn:Hxz; [done|].
  pose proof (lt_false_le z x Hz Hx Hxz) as Hzx.
  pose proof (le_trans _ _ _ Hzx (lt_le _ _ Hxy)) as Hzy.
  by rewrite (lt_le_false _ _ Hyz) in Hzy.
Qed.

Lemma Less_Some r i j a b :
  r !! i = Some a → r !! j = Some b →
  Less r i j = Some (Float64.lt (weight a) (weight b)).
Proof. intros Hi Hj. unfold Less. by rewrite Hi, Hj. Qed.

(** X1. On rankings whose weights are numbers [Less] is a strict weak
    ordering of the indices in range, which is what [sort.Sort] asks of it: no
    ranking is less than itself, [Less] is asymmetric and transitive, and so
    is "not less". *)
Theorem Less_strict_weak_order (r : rankings) (i j k : nat) :
  numbers r → i < Len r → j < Len r → k < Len r →
  Less r i i = Some false ∧
  (Less r i j = Some true → Less r j i = Some false) ∧
  (Less r i j = Some true → Less r j k = Some true → Less r i k = Some true) ∧
  (Less r i j = Some false → Less r j k = Some false → Less r i k = Some false).
Proof.
  intros Hn Hi Hj Hk.
  destruct (lookup_lt_is_Some_2 r i Hi) as [a Ha].
  destruct (lookup_lt_is_Some_2 r j Hj) as [b Hb].
  destruct (lookup_lt_is_Some_2 r k Hk) as [c Hc].
  unfold numbers in Hn. rewrite Forall_forall in Hn.
  assert (Float64.is_nan (weight a) = false) as Hna
    by (apply Hn; eapply list_elem_of_lookup_2; done).
  assert (Float64.is_nan (weight b) = false) as Hnb
    by (apply Hn; eapply list_elem_of_lookup_2; done).
  assert (Float64.is_nan (weight c) = false) as Hnc
    by (apply Hn; eapply list_elem_of_lookup_2; done).
  rewrite (Less_Some r i i a a), (Less_Some r i j a b), (Less_Some r j i b a),
    (Less_Some r j k b c), (Less_Some r i k a c) by done.
  split; [by rewrite lt_irrefl|]. split; [|split].
  - intros [= H]. by rewrite (lt_asym _ _ H).
  - intros [= H1] [= H2]. by rewrite (lt_trans _ _ _ Hna Hnc H1 H2).
  - intros [= H1] [= H2].
    pose proof (le_trans _ _ _ (lt_false_le _ _ Hnc Hnb H2)
                  (lt_false_le _ _ Hnb Hna H1)) as Hca.
    destruct (Float64.lt (weight a) (weight c)) eqn:Hac; [|done].
    by rewrite (lt_le_false _ _ Hac) in Hca.
Qed.

Lemma Less_strict_weak_order_witness :
  let r := [ {| nodeName := "n1"; weight := 0.3 |};
             {| nodeName := "n2"; weight := 0.9 |};
             {| nodeName := "n3"; weight := 0.9 |} ] in
  Less r 0 0 = Some false ∧
  (Less r 0 1 = Some true → Less r 1 0 = Some false) ∧
  (Less r 0 1 = Some true → Less r 1 2 = Some true → Less r 0 2 = Some true) ∧
  (Less r 0 1 = Some false → Less r 1 2 = Some false → Less r 0 2 = Some false).
Proof.
  apply Less_strict_weak_order; cbn; try lia.
  repeat constructor.
Defined.

(** X2. [Swap] exchanges the rankings at [i] and [j] and nothing else: the
    result is a permutation of the same length, the other indices keep their
    ranking, and swapping again gives the rankings back. *)
Theorem Swap_exchanges (r r' : rankings) (i j : nat) :
  Swap r i j = Some r' →
  r' ≡ₚ r ∧ Len r' = Len r ∧
  r' !! i = r !! j ∧ r' !! j = r !! i ∧
  (∀ k, k ≠ i → k ≠ j → r' !! k = r !! k) ∧
  Swap r' i j = Some r.
Proof.
  unfold Swap, Len, rankings in *.
  destruct (r !! i) as [a|] eqn:Ha; [|done].
  destruct (r !! j) as [b|] eqn:Hb; [|done]. cbn. intros [= <-].
  pose proof (lookup_lt_Some _ _ _ Ha) as Hi.
  pose proof (lookup_lt_Some _ _ _ Hb) as Hj.
  assert (<[j:=a]> (<[i:=b]> r) !! i = Some b) as Hi'.
  { destruct (decide (i = j)) as [->|Hne].
    - rewrite list_lookup_insert_eq by (by rewrite length_insert). congruence.
    - rewrite list_lookup_insert_ne by done. by apply list_lookup_insert_eq. }
  assert (<[j:=a]> (<[i:=b]> r) !! j = Some a) as Hj'
    by (apply list_lookup_insert_eq; by rewrite length_insert).
  split; [by apply Permutation_insert_swap|].
  split; [by rewrite !length_insert|].
  split; [congruence|]. split; [congruence|]. split.
  - intros k Hki Hkj. by rewrite !list_lookup_insert_ne.
  - rewrite Hi', Hj'. cbn. f_equal. apply list_eq. intros k.
    destruct (decide (k = j)) as [->|Hkj].
    + rewrite list_lookup_insert_eq by (by rewrite !length_insert). done.
    + rewrite list_lookup_insert_ne by done.
      destruct (decide (k = i)) as [->|Hki].
      * rewrite list_lookup_insert_eq by (by rewrite !length_insert). done.
      * by rewrite !list_lookup_insert_ne.
Qed.

Lemma Swap_exchanges_witness :
  let r := [ {| nodeName := "n1"; weight := 0.3 |};
             {| nodeName := "n2"; weight := 0.9 |} ] in
  let r' := [ {| nodeName := "n2"; weight := 0.9 |};
              {| nodeName := "n1"; weight := 0.3 |} ] in
  r' ≡ₚ r ∧ Len r' = Len r ∧
  r' !! 0 = r !! 1 ∧ r' !! 1 = r !! 0 ∧
  (∀ k, k ≠ 0 → k ≠ 1 → r' !! k = r !! k) ∧
  Swap r' 0 1 = Some r.
Proof. apply Swap_exchanges. reflexivity. Defined.

(** [Less] and [Swap] panic exactly when an index is out of range. *)
Lemma Less_Swap_in_range (r : rankings) (i j : nat) :
  (Less r i j = None ↔ ¬ (i < Len r ∧ j < Len r)) ∧
  (Swap r i j = None ↔ ¬ (i < Len r ∧ j < Len r)).
Proof.
  unfold Less, Swap, Len.
  destruct (r !! i) as [a|] eqn:Ha; destruct (r !! j) as [b|] eqn:Hb; cbn;
    repeat match goal with
           | H : _ !! _ = Some _ |- _ => apply lookup_lt_Some in H
           | H : _ !! _ = None |- _ => apply lookup_ge_None in H
           end;
    split; split; try done; try lia; intros H; destruct H; lia.
Qed.

End Rankings.

(** ** [parsePath] *)

Section ParsePath.

Lemma Split_cons sep s : ∃ h t, Split sep s = h :: t.
Proof.
  destruct s as [|c s]; cbn; [by eexists _, _|].
  destruct (Ascii.eqb c sep); [by eexists _, _|].
  destruct (Split sep s); by eexists _, _.
Qed.

Lemma Join_cons sep x y rest :
  Join sep (x :: y :: rest) = x ++ String sep (Join sep (y :: rest)).
Proof. done. Qed.

Lemma Join_Split sep s : Join sep (Split sep s) = s.
Proof.
  induction s as [|c s IH]; [done|]. cbn [Split].
  destruct (Ascii.eqb_spec c sep) as [->|Hne].
  - destruct (Split_cons sep s) as (h & t & Hs). rewrite Hs in *.
    rewrite Join_cons, IH. done.
  - destruct (Split_cons sep s) as (h & t & Hs). rewrite Hs in *.
    destruct t as [|y t].
    + cbn in *. by rewrite IH.
    + rewrite Join_cons in *. rewrite <- IH. done.
Qed.

Lemma Split_no_sep sep s : Forall (λ x, contains sep x = false) (Split sep s).
Proof.
  induction s as [|c s IH]; cbn [Split]; [by repeat constructor|].
  destruct (Ascii.eqb_spec c sep) as [->|Hne]; [by constructor|].
  destruct (Split_cons sep s) as (h & t & Hs). rewrite Hs in *.
  inversion IH as [|?? Hh Ht]; subst. constructor; [|done].
  cbn. by destruct (Ascii.eqb_spec c sep).
Qed.

Lemma Split_Join sep parts :
  parts ≠ [] → Forall (λ x, contains sep x = false) parts →
  Split sep (Join sep parts) = parts.
Proof.
  assert (∀ x, contains sep x = false → ∀ tail,
            Split sep (x ++ String sep tail) = x :: Split sep tail) as Hhead.
  { induction x as [|c x IH]; intros Hx tail.
    - change (Split sep (String sep tail) = "" :: Split sep tail).
      cbn [Split]. by rewrite Ascii.eqb_refl.
    - change (Split sep (String c (x ++ String sep tail)) =
              String c x :: Split sep tail).
      cbn [contains] in Hx. apply orb_false_elim in Hx as [Hc Hx].
      cbn [Split]. rewrite Hc. by rewrite IH. }
  assert (∀ x, contains sep x = false → Split sep x = [x]) as Hone.
  { induction x as [|c x IH]; intros Hx; [done|]. cbn [contains Split] in *.
    apply orb_false_elim in Hx as [Hc Hx]. rewrite Hc. by rewrite IH. }
  induction parts as [|x [|y rest] IH]; intros Hne Hall; [done| |].
  - inversion Hall; subst. cbn. by apply Hone.
  - inversion Hall; subst. rewrite Join_cons, Hhead by done.
    f_equal. by apply IH.
Qed.

(** X3. A path that starts with a slash is cut at its slashes: [parsePath]
    gives at least one segment, no segment holds a slash, and the segments
    joined by slashes are the path after its first slash -- so an empty
    segment stands for each doubled or trailing slash. *)
Theorem parsePath_segments (rest : string) :
  ∃ parts,
    parsePath (String slash rest) = Done (Str <$> parts) ∧
    parts ≠ [] ∧
    Forall (λ x, contains slash x = false) parts ∧
    Join slash parts = rest.
Proof.
  exists (Split slash rest). split; [done|]. split.
  - destruct (Split_cons slash rest) as (h & t & ->). done.
  - split; [apply Split_no_sep|apply Join_Split].
Qed.

(** X4. Read the other way: for segments that hold no slash, [parsePath]
    of the slash-joined path gives back exactly these segments. *)
Theorem parsePath_of_segments (parts : list string) :
  parts ≠ [] → Forall (λ x, contains slash x = false) parts →
  parsePath (String slash (Join slash parts)) = Done (Str <$> parts).
Proof.
  intros Hne Hall. cbn. by rewrite Split_Join.
Qed.

Lemma parsePath_of_segments_witness :
  parsePath (String slash (Join slash ["io"; "k8s"; "scheduler"; "fit"])) =
  Done (Str <$> ["io"; "k8s"; "scheduler"; "fit"]).
Proof.
  apply parsePath_of_segments; [done|]. by repeat constructor.
Defined.

(** X5. [parsePath] gives segments only for a path that starts with a slash:
    on the empty path it panics (the index [p[0]] is out of range), and on
    any other first byte it ends the process through [glog.Fatalf]. *)
Theorem parsePath_rejects (p : string) :
  ((∃ parts, parsePath p = Done parts) ↔ ∃ rest, p = String slash rest) ∧
  ((∃ why, parsePath p = Crash why) ↔ p = "") ∧
  ((∃ msg, parsePath p = Fatal msg) ↔
   ∃ c rest, p = String c rest ∧ c ≠ slash).
Proof.
  destruct p as [|c rest]; cbn.
  - split; [|split]; split; try done; try (by intros [? ?]); eauto.
    + intros (? & ? & ? & ?). done.
  - destruct (Ascii.eqb_spec c slash) as [->|Hne]; cbn.
    + split; [|split]; split; try (by intros [? ?]); eauto.
      * done.
      * intros (c & r & [= <- <-] & Hc). done.
    + split; [|split]; split; try (by intros [? ?]); eauto.
      * intros [r [= Hc _]]. done.
      * done.
Qed.

End ParsePath.

(** ** More of the scheduling attempt *)

Section MoreOfTheAttempt.

Import Cluster.

(** All [bindPod] records is the request it sent, if it got that far. *)
Lemma bindPod_events E pod σ :
  ∃ r evs,
    bindPod E pod σ = (Return r, recorded σ evs) ∧
    (evs = [] ∨ ∃ req, evs = [EvDo req]).
Proof.
  unfold bindPod. go.
  destruct (getMetadata "name" _ _);
    [|exists (Some e), []; rewrite recorded_nil; eauto].
  destruct (getNodeName _ _);
    [|exists (Some e), []; rewrite recorded_nil; eauto].
  destruct (getMetadata "namespace" _ _);
    [|exists (Some e), []; rewrite recorded_nil; eauto].
  destruct (http_NewRequest _ _ _ _);
    [|exists (Some e), []; rewrite recorded_nil; eauto].
  destruct (clientFor E); [exists (Some e), []; rewrite recorded_nil; eauto|].
  go. destruct (client_Do E a2) as [resp|e]; [|exists (Some e), [EvDo a2]; eauto].
  destruct (_ >? _)%Z; eexists _, [EvDo a2]; eauto.
Qed.

Lemma recorded_inj σ evs evs' : recorded σ evs = recorded σ evs' → evs = evs'.
Proof. unfold recorded. intros [= H]. by apply app_inv_head in H. Qed.

(** X6. The attempt commits or retracts.  Once a node is selected for a pod
    with a [spec] object and [data.pods] exists, [schedulePod] returns (it
    does not panic), and on return either it returns no error, its one write
    is the add of the pod and the store holds the pod at [data.pods[uid]],
    or it returns an error, its writes are that add and the remove at the
    same path, and the store has no entry there -- whatever made the binding
    fail, a pod document without a name included. *)
Theorem schedulePod_commits_or_retracts (E : Env) (pod : loc) (σ : state) (uid : string)
    (m sp : loc) (spm : gomap) (coll : gmap string value) :
  sort_permutes E →
  field (objects σ) pod "metadata" "uid" = Str uid →
  topdown_Query E (data σ) (objects σ) pod = Ok (Val (MapRef m)) →
  weights (load (objects σ) m) →
  load (objects σ) m ≠ [] →
  has_spec (objects σ) pod sp spm →
  data σ !! "pods" = Some coll →
  ∃ r σ',
    schedulePod E pod σ = (Return r, σ') ∧
    match r with
    | None =>
        data σ' = <["pods" := <[uid := MapRef pod]> coll]> (data σ) ∧
        writes (trace σ') =
          (writes (trace σ) ++ [(AddOp, ("pods", uid), MapRef pod)])%list
    | Some _ =>
        data σ' = <["pods" := delete uid coll]> (data σ) ∧
        writes (trace σ') =
          (writes (trace σ) ++ [(AddOp, ("pods", uid), MapRef pod);
                                (RemoveOp, ("pods", uid), Nil)])%list
    end.
Proof.
  intros Hperm Huid Hq Hw Hne Hspec Hpods.
  destruct (selected_exists E _ Hperm Hw Hne) as [top Hlast].
  destruct (schedulePod_selected E pod σ uid m top sp spm coll)
    as (r & evs & Hb & ->); try done.
  destruct (bindPod_events E pod
              {| objects := assigned (objects σ) sp spm (Str (nodeName top));
                 data := <["pods" := <[uid := MapRef pod]> coll]> (data σ);
                 trace := trace σ ++ [EvNewTransaction; EvQuery pod;
                                      EvWrite AddOp ("pods", uid) (MapRef pod)] |})
    as (r' & evs' & Hb' & Hevs).
  rewrite Hb in Hb'. injection Hb' as <- Hrec.
  assert (evs = evs') as <-.
  { cbn in Hrec. by apply app_inv_head in Hrec. }
  assert (writes evs = []) as Hnone
    by (destruct Hevs as [->|[req ->]]; done).
  destruct r as [err|]; eexists _, _; (split; [done|]); cbn [data trace recorded].
  - split; [done|]. rewrite !writes_app, Hnone. cbn.
    by rewrite <- app_assoc.
  - split; [done|]. rewrite !writes_app, Hnone. cbn.
    by rewrite app_nil_r.
Qed.

(** The pod of the scenarios, bound at the first try. *)
Lemma schedulePod_commits_or_retracts_witness :
  ∃ r σ',
    schedulePod (env (Ok (Val (MapRef fit_one))) None (status 201)) p1 start =
      (Return r, σ') ∧
    match r with
    | None =>
        data σ' = <["pods" := <["p1" := MapRef p1]> ∅]> (data start) ∧
        writes (trace σ') =
          (writes (trace start) ++ [(AddOp, ("pods", "p1"), MapRef p1)])%list
    | Some _ =>
        data σ' = <["pods" := delete "p1" ∅]> (data start) ∧
        writes (trace σ') =
          (writes (trace start) ++ [(AddOp, ("pods", "p1"), MapRef p1);
                                    (RemoveOp, ("pods", "p1"), Nil)])%list
    end.
Proof.
  apply (schedulePod_commits_or_retracts _ p1 start "p1" fit_one 3%positive [] ∅).
  - apply env_sort_permutes.
  - reflexivity.
  - reflexivity.
  - repeat constructor; eexists; reflexivity.
  - discriminate.
  - split; reflexivity.
  - reflexivity.
Defined.

(** X7. The placement, end to end.  When a node is selected, the store takes
    the pod, and the control plane answers the binding with a status of at
    most 201, [schedulePod] returns no error having made exactly these
    calls: open a transaction, query, add the pod at [data.pods[uid]], one
    POST binding the pod's name and namespace to the node, log, close.  The
    node of the POST, the node logged and the [spec.nodeName] of the stored
    pod document are the same node. *)
Theorem schedulePod_places (E : Env) (pod : loc) (σ : state) (uid : string)
    (m sp : loc) (spm : gomap) (coll : gmap string value)
    (podName namespace : string) (top : ranking) (resp : Response) :
  field (objects σ) pod "metadata" "uid" = Str uid →
  topdown_Query E (data σ) (objects σ) pod = Ok (Val (MapRef m)) →
  weights (load (objects σ) m) →
  last (sort_Sort E (rankingsOf (load (objects σ) m))) = Some top →
  has_spec (objects σ) pod sp spm →
  data σ !! "pods" = Some coll →
  field (objects σ) pod "metadata" "name" = Str podName →
  field (objects σ) pod "metadata" "namespace" = Str namespace →
  url_Parse E (baseURLFor E ++ "/namespaces/" ++ namespace ++ "/bindings") = None →
  clientFor E = None →
  client_Do E (bindingRequest E podName namespace (nodeName top)) = Ok resp →
  (StatusCode resp ≤ StatusCreated)%Z →
  ∃ σ',
    schedulePod E pod σ = (Return None, σ') ∧
    trace σ' =
      (trace σ ++
       [EvNewTransaction; EvQuery pod;
        EvWrite AddOp ("pods", uid) (MapRef pod);
        EvDo (bindingRequest E podName namespace (nodeName top));
        EvLog Info (Scheduled (Str podName) (nodeName top));
        EvClose])%list ∧
    data σ' = <["pods" := <[uid := MapRef pod]> coll]> (data σ) ∧
    getNodeName pod (objects σ') = Ok (nodeName top).
Proof.
  intros Huid Hq Hw Hlast Hspec Hpods Hname Hns Hurl Hclient Hdo Hle.
  destruct (schedulePod_selected E pod σ uid m top sp spm coll)
    as (r & evs & Hb & ->); try done.
  pose proof Hspec as [_ Hsp].
  rewrite (bindPod_named E pod _ podName namespace (nodeName top)) in Hb; cycle 1.
  { cbn [objects]. by rewrite field_assigned. }
  { cbn [objects]. by rewrite field_assigned. }
  { cbn [objects]. by apply field_nodeName_assigned. }
  cbn zeta in Hb. cbn [bindingRequest URL] in Hb. rewrite Hurl, Hclient in Hb.
  fold (bindingRequest E podName namespace (nodeName top)) in Hb.
  rewrite Hdo in Hb.
  destruct (Z.gtb_spec (StatusCode resp) StatusCreated); [lia|].
  injection Hb as <- Ht. apply app_inv_head in Ht as <-.
  eexists. split; [done|]. cbn [trace data objects recorded].
  split; [by rewrite Hname, <- !app_assoc|]. split; [done|].
  by rewrite getNodeName_field, field_nodeName_assigned.
Qed.

Lemma schedulePod_places_witness :
  ∃ σ',
    schedulePod (env (Ok (Val (MapRef fit_one))) None (status 201)) p1 start =
      (Return None, σ') ∧
    trace σ' =
      (trace start ++
       [EvNewTransaction; EvQuery p1;
        EvWrite AddOp ("pods", "p1") (MapRef p1);
        EvDo (bindingRequest (env (Ok (Val (MapRef fit_one))) None (status 201))
                "a" "ns" "node-1");
        EvLog Info (Scheduled (Str "a") "node-1");
        EvClose])%list ∧
    data σ' = <["pods" := <["p1" := MapRef p1]> ∅]> (data start) ∧
    getNodeName p1 (objects σ') = Ok "node-1".
Proof.
  apply (schedulePod_places _ p1 start "p1" fit_one 3%positive [] ∅ "a" "ns"
           {| nodeName := "node-1"; weight := 1.0 |} {| StatusCode := 201 |}).
  - reflexivity.
  - reflexivity.
  - repeat constructor; eexists; reflexivity.
  - reflexivity.
  - split; reflexivity.
  - reflexivity.
  - reflexivity.
  - reflexivity.
  - reflexivity.
  - reflexivity.
  - reflexivity.
  - reflexivity.
Defined.

(** X8. One best node is the node selected.  When one key of the oracle's
    mapping outweighs every other key, [schedulePod] writes that key into
    the pod's [spec.nodeName], in whatever order the map is visited and
    however the sort treats ties. *)
Theorem schedulePod_selects_the_best (E : Env) (pod : loc) (σ : state)
    (uid : string) (m sp : loc) (spm : gomap) (best : string) (wb : float) :
  sort_permutes E → sort_sorts E →
  field (objects σ) pod "metadata" "uid" = Str uid →
  topdown_Query E (data σ) (objects σ) pod = Ok (Val (MapRef m)) →
  numeric (load (objects σ) m) →
  has_spec (objects σ) pod sp spm →
  (best, Float64 wb) ∈ load (objects σ) m →
  (∀ node w, (node, Float64 w) ∈ load (objects σ) m → node ≠ best →
             Float64.lt w wb = true) →
  field (objects (schedulePod E pod σ).2) pod "spec" "nodeName" = Str best.
Proof.
  intros Hperm Hsort Huid Hq Hnum Hspec Hbest Hless.
  pose proof (numeric_weights _ Hnum) as Hw.
  assert (load (objects σ) m ≠ []) as Hne
    by (intros H; rewrite H in Hbest; inversion Hbest).
  destruct (selected_exists E _ Hperm Hw Hne) as [top Hlast].
  destruct (selected_max E _ top Hperm Hsort Hnum Hlast) as [Hin Hmax].
  rewrite (schedulePod_selected_objects E pod σ uid m top sp spm) by done.
  rewrite field_nodeName_assigned by done. f_equal.
  destruct (decide (nodeName top = best)) as [|Hother]; [done|].
  pose proof (Hless _ _ Hin Hother) as Hlt.
  pose proof (Hmax _ _ Hbest) as Hle.
  by rewrite (lt_le_false _ _ Hlt) in Hle.
Qed.

(** A heap with a fit document of two different weights,
    [{"a": 0.25, "b": 0.75}], beside the objects of the sample cluster. *)
Definition fit_two : loc := 30%positive.

Definition start_two : state :=
  {| objects := <[fit_two := [("a", Float64 0.25); ("b", Float64 0.75)]]> objs;
     data := roots;
     trace := [] |}.

Lemma schedulePod_selects_the_best_witness :
  field (objects (schedulePod (env (Ok (Val (MapRef fit_two))) None (status 201))
                    p1 start_two).2) p1 "spec" "nodeName" = Str "b".
Proof.
  apply (schedulePod_selects_the_best _ p1 start_two "p1" fit_two 3%positive []
           "b" 0.75).
  - apply env_sort_permutes.
  - apply env_sort_sorts.
  - reflexivity.
  - reflexivity.
  - repeat constructor; eexists; split; reflexivity.
  - split; reflexivity.
  - apply list_elem_of_further, list_elem_of_here.
  - intros node w Hin Hne.
    apply elem_of_cons in Hin as [[= -> ->]|Hin]; [reflexivity|].
    apply list_elem_of_singleton in Hin. injection Hin as -> _. done.
Defined.

Ltac attempt Huid :=
  let md := fresh "md" in
  let Hmd := fresh "Hmd" in
  let Hname := fresh "Hname" in
  pose proof Huid as Hmd; apply field_Str in Hmd as (md & Hmd & _);
  pose proof (field_MapRef _ _ _ "name" _ Hmd) as Hname;
  unfold schedulePod; go;
  unfold getUID; rewrite getMetadata_field, Huid; go;
  rewrite Hmd; go; rewrite <- Hname.

Lemma schedulePod_no_spec (E : Env) (pod : loc) (σ : state)
    (uid : string) (m : loc) (top : ranking) :
  field (objects σ) pod "metadata" "uid" = Str uid →
  topdown_Query E (data σ) (objects σ) pod = Ok (Val (MapRef m)) →
  weights (load (objects σ) m) →
  last (sort_Sort E (rankingsOf (load (objects σ) m))) = Some top →
  (∀ sp spm, ¬ has_spec (objects σ) pod sp spm) →
  ∃ why,
    schedulePod E pod σ =
    (Panic why, recorded σ [EvNewTransaction; EvQuery pod; EvClose]).
Proof.
  intros Huid Hq Hw Hlast Hnospec.
  attempt Huid. rewrite Hq. go.
  rewrite appendRankings_weights by done. cbn [app]. rewrite Hlast. go.
  destruct (index (load (objects σ) pod) "spec") as [| | | | |sp] eqn:Hspec; go;
    try (eexists; unfold recorded; cbn; by rewrite <- !app_assoc).
  destruct (objects σ !! sp) as [spm|] eqn:Hsp.
  - by destruct (Hnospec sp spm).
  - go. eexists. unfold recorded. cbn. by rewrite <- !app_assoc.
Qed.

(** X9. A pod document without a [spec] object.  When a node is selected for
    it, [schedulePod] panics at [pod["spec"].(map[string]interface{})] (or at
    the assignment, if [spec] is the nil map): the transaction is closed,
    nothing was written, no request was sent, and no error value is
    returned. *)
Theorem schedulePod_without_spec (E : Env) (pod : loc) (σ : state)
    (uid : string) (m : loc) :
  sort_permutes E →
  field (objects σ) pod "metadata" "uid" = Str uid →
  topdown_Query E (data σ) (objects σ) pod = Ok (Val (MapRef m)) →
  weights (load (objects σ) m) →
  load (objects σ) m ≠ [] →
  (∀ sp spm, ¬ has_spec (objects σ) pod sp spm) →
  ∃ why,
    schedulePod E pod σ =
    (Panic why, recorded σ [EvNewTransaction; EvQuery pod; EvClose]).
Proof.
  intros Hperm Huid Hq Hw Hne Hnospec.
  destruct (selected_exists E _ Hperm Hw Hne) as [top Hlast].
  by apply (schedulePod_no_spec E pod σ uid m top).
Qed.

Lemma schedulePod_without_spec_witness :
  ∃ why,
    schedulePod (env (Ok (Val (MapRef fit_one))) None (status 201)) node2 start =
    (Panic why, recorded start [EvNewTransaction; EvQuery node2; EvClose]).
Proof.
  apply (schedulePod_without_spec _ node2 start "n2" fit_one).
  - apply env_sort_permutes.
  - reflexivity.
  - reflexivity.
  - repeat constructor; eexists; reflexivity.
  - discriminate.
  - intros sp spm [Hspec _]. vm_compute in Hspec. discriminate Hspec.
Defined.

(** X10. The oracle fails.  [schedulePod] returns the error of
    [topdown.Query] as it is; the transaction it opened is closed, and
    nothing is written, logged or sent. *)
Theorem schedulePod_oracle_error (E : Env) (pod : loc) (σ : state)
    (uid : string) (err : error) :
  field (objects σ) pod "metadata" "uid" = Str uid →
  topdown_Query E (data σ) (objects σ) pod = Err err →
  schedulePod E pod σ =
  (Return (Some err), recorded σ [EvNewTransaction; EvQuery pod; EvClose]).
Proof. apply schedulePod_query_error. Qed.

Lemma schedulePod_oracle_error_witness :
  schedulePod (env (Err (Failure "eval")) None (status 201)) p1 start =
  (Return (Some (Failure "eval")),
   recorded start [EvNewTransaction; EvQuery p1; EvClose]).
Proof. apply (schedulePod_oracle_error _ p1 start "p1"); reflexivity. Defined.

Lemma schedulePod_no_root (E : Env) (pod : loc) (σ : state)
    (uid : string) (m sp : loc) (spm : gomap) (top : ranking) :
  field (objects σ) pod "metadata" "uid" = Str uid →
  topdown_Query E (data σ) (objects σ) pod = Ok (Val (MapRef m)) →
  weights (load (objects σ) m) →
  last (sort_Sort E (rankingsOf (load (objects σ) m))) = Some top →
  has_spec (objects σ) pod sp spm →
  data σ !! "pods" = None →
  schedulePod E pod σ =
  (Return (Some (NotFound ("pods", uid))),
   {| objects := assigned (objects σ) sp spm (Str (nodeName top));
      data := data σ;
      trace := trace σ ++ [EvNewTransaction; EvQuery pod;
                           EvWrite AddOp ("pods", uid) (MapRef pod);
                           EvClose] |}).
Proof.
  intros Huid Hq Hw Hlast [Hspec Hsp] Hpods.
  attempt Huid. rewrite Hq. go.
  rewrite appendRankings_weights by done. cbn [app]. rewrite Hlast. go.
  rewrite Hspec. go. rewrite Hsp. go.
  unfold patchData. cbn [fst snd]. rewrite Hpods. go.
  unfold assigned. by rewrite <- !app_assoc.
Qed.

(** X11. No root document for pods.  When a node is selected but
    [data.pods] does not exist, the add fails: [schedulePod] returns the
    store's not-found error and sends no request to the control plane; the
    pod document has its [nodeName] set all the same. *)
Theorem schedulePod_without_root (E : Env) (pod : loc) (σ : state)
    (uid : string) (m sp : loc) (spm : gomap) (top : ranking) :
  field (objects σ) pod "metadata" "uid" = Str uid →
  topdown_Query E (data σ) (objects σ) pod = Ok (Val (MapRef m)) →
  weights (load (objects σ) m) →
  last (sort_Sort E (rankingsOf (load (objects σ) m))) = Some top →
  has_spec (objects σ) pod sp spm →
  data σ !! "pods" = None →
  schedulePod E pod σ =
  (Return (Some (NotFound ("pods", uid))),
   {| objects := assigned (objects σ) sp spm (Str (nodeName top));
      data := data σ;
      trace := trace σ ++ [EvNewTransaction; EvQuery pod;
                           EvWrite AddOp ("pods", uid) (MapRef pod);
                           EvClose] |}).
Proof. apply schedulePod_no_root. Qed.

(** The sample cluster before [init]: no root document at all. *)
Definition bare : state := {| objects := objs; data := ∅; trace := [] |}.

Lemma schedulePod_without_root_witness :
  schedulePod (env (Ok (Val (MapRef fit_one))) None (status 201)) p1 bare =
  (Return (Some (NotFound ("pods", "p1"))),
   {| objects := assigned (objects bare) 3%positive []
                   (Str (nodeName {| nodeName := "node-1"; weight := 1.0 |}));
      data := data bare;
      trace := trace bare ++ [EvNewTransaction; EvQuery p1;
                              EvWrite AddOp ("pods", "p1") (MapRef p1);
                              EvClose] |}).
Proof.
  apply (schedulePod_without_root _ p1 bare "p1" fit_one 3%positive []
           {| nodeName := "node-1"; weight := 1.0 |}).
  - reflexivity.
  - reflexivity.
  - repeat constructor; eexists; reflexivity.
  - reflexivity.
  - split; reflexivity.
  - reflexivity.
Defined.

End MoreOfTheAttempt.

(** ** More of the patch action *)

Section MoreOfPatch.

Import Cluster.

(** One [patchOp] on an item with a uid: a transaction of its own around one
    write, whose outcome is the store's. *)
Lemma patchOp_run resourceType op item σ uid :
  uidOf (objects σ) item = Some uid →
  patchOp resourceType op item σ =
  match patchData op (resourceType, uid) item (data σ) with
  | Ok d =>
      (Return None,
       {| objects := objects σ; data := d;
          trace := trace σ ++ [EvNewTransaction;
                               EvWrite op (resourceType, uid) item; EvClose] |})
  | Err e =>
      (Return (Some e),
       recorded σ [EvNewTransaction; EvWrite op (resourceType, uid) item; EvClose])
  end.
Proof.
  intros Huid. unfold patchOp. go. rewrite getUID_uidOf, Huid. go.
  destruct (patchData _ _ _ _); go.
  - by rewrite <- !app_assoc.
  - unfold recorded. cbn. by rewrite <- !app_assoc.
Qed.

(** X12. A [modified] event replaces, it does not insert.  For an object
    with a string uid, [patch] makes one write, a replace at
    [data.<resourceType>[uid]]: when the store holds an entry there it
    returns no error and the entry is now the event's object; when the
    store holds none it returns the not-found error and the store is as it
    was. *)
Theorem patch_modified (resourceType : string) (Object : loc) (σ : state)
    (uid : string) :
  uidOf (objects σ) (MapRef Object) = Some uid →
  let r := patch resourceType (sync modified Object) σ in
  writes (trace r.2) =
    (writes (trace σ) ++ [(ReplaceOp, (resourceType, uid), MapRef Object)])%list ∧
  (∀ coll old, data σ !! resourceType = Some coll → coll !! uid = Some old →
     r.1 = Return None ∧
     data r.2 = <[resourceType := <[uid := MapRef Object]> coll]> (data σ)) ∧
  (data σ !! resourceType ≫= (.!! uid) = None →
     r.1 = Return (Some (NotFound (resourceType, uid))) ∧ data r.2 = data σ).
Proof.
  intros Huid. cbn [patch]. rewrite (patchOp_run _ _ _ _ uid) by done.
  unfold patchData. cbn [fst snd].
  destruct (data σ !! resourceType) as [coll|] eqn:Hroot; cbn.
  - destruct (coll !! uid) as [old|] eqn:Hold; cbn.
    + rewrite writes_app. cbn. split; [done|]. split; [|done].
      by intros ?? [= <-] _.
    + rewrite writes_app. cbn. split; [done|]. split; [|done].
      intros ?? [= <-] ?. congruence.
  - rewrite writes_app. cbn. split; [done|]. split; [done|done].
Qed.

Lemma patch_modified_witness :
  let r := patch "nodes" (sync modified node2) start in
  writes (trace r.2) =
    (writes (trace start) ++ [(ReplaceOp, ("nodes", "n2"), MapRef node2)])%list ∧
  (∀ coll old, data start !! "nodes" = Some coll → coll !! "n2" = Some old →
     r.1 = Return None ∧
     data r.2 = <["nodes" := <["n2" := MapRef node2]> coll]> (data start)) ∧
  (data start !! "nodes" ≫= (.!! "n2") = None →
     r.1 = Return (Some (NotFound ("nodes", "n2"))) ∧ data r.2 = data start).
Proof. apply patch_modified. reflexivity. Defined.

(** X13. A [deleted] event removes the entry under the object's uid.  [patch]
    makes one write, a remove at [data.<resourceType>[uid]]: when the store
    holds an entry there, whatever document it is, it returns no error and
    the entry is gone while the other entries stay; when the store holds
    none it returns the not-found error and the store is as it was. *)
Theorem patch_deleted (resourceType : string) (Object : loc) (σ : state)
    (uid : string) :
  uidOf (objects σ) (MapRef Object) = Some uid →
  let r := patch resourceType (sync deleted Object) σ in
  writes (trace r.2) =
    (writes (trace σ) ++ [(RemoveOp, (resourceType, uid), MapRef Object)])%list ∧
  (∀ coll old, data σ !! resourceType = Some coll → coll !! uid = Some old →
     r.1 = Return None ∧
     data r.2 = <[resourceType := delete uid coll]> (data σ)) ∧
  (data σ !! resourceType ≫= (.!! uid) = None →
     r.1 = Return (Some (NotFound (resourceType, uid))) ∧ data r.2 = data σ).
Proof.
  intros Huid. cbn [patch]. rewrite (patchOp_run _ _ _ _ uid) by done.
  unfold patchData. cbn [fst snd].
  destruct (data σ !! resourceType) as [coll|] eqn:Hroot; cbn.
  - destruct (coll !! uid) as [old|] eqn:Hold; cbn.
    + rewrite writes_app. cbn. split; [done|]. split; [|done].
      by intros ?? [= <-] _.
    + rewrite writes_app. cbn. split; [done|]. split; [|done].
      intros ?? [= <-] ?. congruence.
  - rewrite writes_app. cbn. split; [done|]. split; [done|done].
Qed.

Lemma patch_deleted_witness :
  let r := patch "nodes" (sync deleted node2) start in
  writes (trace r.2) =
    (writes (trace start) ++ [(RemoveOp, ("nodes", "n2"), MapRef node2)])%list ∧
  (∀ coll old, data start !! "nodes" = Some coll → coll !! "n2" = Some old →
     r.1 = Return None ∧
     data r.2 = <["nodes" := delete "n2" coll]> (data start)) ∧
  (data start !! "nodes" ≫= (.!! "n2") = None →
     r.1 = Return (Some (NotFound ("nodes", "n2"))) ∧ data r.2 = data start).
Proof. apply patch_deleted. reflexivity. Defined.

(** X14. Added, then deleted.  For an object whose uid the collection does
    not hold yet, [patch] of the [added] event followed by [patch] of the
    [deleted] event returns no error twice and leaves the documents of the
    store exactly as they were. *)
Theorem patch_added_then_deleted (resourceType : string) (Object : loc)
    (σ : state) (uid : string) (coll : gmap string value) :
  uidOf (objects σ) (MapRef Object) = Some uid →
  data σ !! resourceType = Some coll →
  coll !! uid = None →
  let one := patch resourceType (sync added Object) σ in
  let two := patch resourceType (sync deleted Object) one.2 in
  one.1 = Return None ∧ two.1 = Return None ∧
  data one.2 !! resourceType ≫= (.!! uid) = Some (MapRef Object) ∧
  data two.2 = data σ.
Proof.
  intros Huid Hroot Hfresh. cbn [patch].
  rewrite (patchOp_add _ _ σ uid coll) by done. cbn [fst snd].
  rewrite (patchOp_run _ _ _ _ uid) by done.
  unfold patchData. cbn [fst snd data].
  rewrite !lookup_insert_eq. cbn.
  rewrite lookup_insert_eq. cbn.
  do 3 (split; [done|]).
  rewrite insert_insert_eq, delete_insert_id by done.
  by apply insert_id.
Qed.

Lemma patch_added_then_deleted_witness :
  let one := patch "nodes" (sync added node2) start in
  let two := patch "nodes" (sync deleted node2) one.2 in
  one.1 = Return None ∧ two.1 = Return None ∧
  data one.2 !! "nodes" ≫= (.!! "n2") = Some (MapRef node2) ∧
  data two.2 = data start.
Proof.
  apply (patch_added_then_deleted "nodes" node2 start "n2" ∅); reflexivity.
Defined.

End MoreOfPatch.

(** ** Snapshots, the frame of [patch], and [init] *)

(** Every entry of a collection is stored under its own uid. *)
Definition keyed_by_uid (h : heap) (coll : gmap string value) : Prop :=
  ∀ k doc, coll !! k = Some doc → uidOf h doc = Some k.

Section Snapshots.

Import Cluster.

Lemma forEach_cons {A} (f : A → Go (option error)) x xs σ :
  forEach f (x :: xs) σ =
  match f x σ with
  | (Return None, σ') => forEach f xs σ'
  | stopped => stopped
  end.
Proof.
  cbn [forEach]. go. by destruct (f x σ) as [[[e|]|why] σ'].
Qed.

Lemma forEach_app {A} (f : A → Go (option error)) xs ys σ :
  forEach f (xs ++ ys) σ =
  match forEach f xs σ with
  | (Return None, σ') => forEach f ys σ'
  | stopped => stopped
  end.
Proof.
  revert σ. induction xs as [|x xs IH]; intros σ; [done|].
  rewrite <- app_comm_cons, !forEach_cons.
  destruct (f x σ) as [[[e|]|why] σ']; done || apply IH.
Qed.

Lemma forEach_invariant {A} (I : state → Prop) (f : A → Go (option error)) xs :
  (∀ x σ, I σ → I (f x σ).2) → ∀ σ, I σ → I (forEach f xs σ).2.
Proof.
  intros Hf. induction xs as [|x xs IH]; intros σ Hσ; [done|].
  rewrite forEach_cons. specialize (Hf x σ Hσ).
  destruct (f x σ) as [[[e|]|why] σ']; done || by apply IH.
Qed.

Lemma forEach_returns {A} (f : A → Go (option error)) xs :
  (∀ x σ, ∃ r, (f x σ).1 = Return r) → ∀ σ, ∃ r, (forEach f xs σ).1 = Return r.
Proof.
  intros Hf. induction xs as [|x xs IH]; intros σ; [by eexists|].
  rewrite forEach_cons. destruct (Hf x σ) as [r Hr].
  destruct (f x σ) as [[[e|]|why] σ']; try done; eauto.
Qed.

(** X15. A snapshot in two parts.  For both actions, a Resync of [xs ++ ys]
    is the Resync of [xs] followed, only if that returned no error, by the
    Resync of [ys] in the state it left: after the first item that fails or
    panics no later item is touched. *)
Theorem resync_in_two_parts (E : Env) (resourceType : string)
    (xs ys : list value) (σ : state) :
  schedule E resourceType (resync (xs ++ ys)) σ =
    match schedule E resourceType (resync xs) σ with
    | (Return None, σ') => schedule E resourceType (resync ys) σ'
    | stopped => stopped
    end ∧
  patch resourceType (resync (xs ++ ys)) σ =
    match patch resourceType (resync xs) σ with
    | (Return None, σ') => patch resourceType (resync ys) σ'
    | stopped => stopped
    end.
Proof. split; apply forEach_app. Qed.

(** X16. An item that is not an object.  At the head of a snapshot it makes
    [schedule] panic in [item.(map[string]interface{})], while [patch]
    returns the malformed-object error for it; neither touches the state or
    the items behind it. *)
Theorem resync_item_not_an_object (E : Env) (resourceType : string)
    (item : value) (rest : list value) (σ : state) :
  (∀ l, item ≠ MapRef l) →
  schedule E resourceType (resync (item :: rest)) σ =
    (Panic "interface conversion: interface {} is not map[string]interface {}", σ) ∧
  patch resourceType (resync (item :: rest)) σ =
    (Return (Some (MalformedObject item)), σ).
Proof.
  intros Hitem. cbn [schedule patch]. rewrite !forEach_cons. split.
  - destruct item; go; try done. by destruct (Hitem l).
  - rewrite patchOp_no_uid; [done|]. destruct item; try done.
    by destruct (Hitem l).
Qed.

Lemma resync_item_not_an_object_witness :
  schedule (env (Ok Undefined) None (status 201)) "pods"
    (resync [Str "pod"; MapRef p1]) start =
    (Panic "interface conversion: interface {} is not map[string]interface {}",
     start) ∧
  patch "pods" (resync [Str "pod"; MapRef p1]) start =
    (Return (Some (MalformedObject (Str "pod"))), start).
Proof. apply resync_item_not_an_object. discriminate. Defined.

Lemma patchData_frame op resourceType k v d d' :
  patchData op (resourceType, k) v d = Ok d' →
  (∀ other, other ≠ resourceType → d' !! other = d !! other) ∧
  is_Some (d !! resourceType) ∧ is_Some (d' !! resourceType).
Proof.
  unfold patchData. cbn [fst snd].
  destruct (d !! resourceType) as [coll|] eqn:Hroot; [|done].
  destruct op; [|destruct (coll !! k)..]; intros [= <-];
    (split; [intros; by rewrite lookup_insert_ne|]);
    rewrite lookup_insert_eq; eauto.
Qed.

Lemma patchOp_outcome resourceType op item σ :
  (patchOp resourceType op item σ = (Return (Some (MalformedObject item)), σ) ∧
   uidOf (objects σ) item = None) ∨
  ∃ uid, uidOf (objects σ) item = Some uid ∧
    ((∃ d, patchData op (resourceType, uid) item (data σ) = Ok d ∧
           (patchOp resourceType op item σ).1 = Return None ∧
           objects (patchOp resourceType op item σ).2 = objects σ ∧
           data (patchOp resourceType op item σ).2 = d) ∨
     (∃ e, (patchOp resourceType op item σ).1 = Return (Some e) ∧
           objects (patchOp resourceType op item σ).2 = objects σ ∧
           data (patchOp resourceType op item σ).2 = data σ)).
Proof.
  destruct (uidOf (objects σ) item) as [uid|] eqn:Huid.
  - right. exists uid. split; [done|]. rewrite (patchOp_run _ _ _ _ uid) by done.
    destruct (patchData _ _ _ _) as [d|e]; [left|right]; eauto.
  - left. by rewrite patchOp_no_uid.
Qed.

(** What [patch] on [resourceType] may change: the collection of that
    resource type, if there is one. *)
Definition within (resourceType : string) (σ σ' : state) : Prop :=
  objects σ' = objects σ ∧
  (∀ other, other ≠ resourceType → data σ' !! other = data σ !! other) ∧
  (is_Some (data σ' !! resourceType) ↔ is_Some (data σ !! resourceType)).

Lemma within_refl resourceType σ : within resourceType σ σ.
Proof. done. Qed.

Lemma within_trans resourceType σ1 σ2 σ3 :
  within resourceType σ1 σ2 → within resourceType σ2 σ3 →
  within resourceType σ1 σ3.
Proof.
  intros (Ho & Hd & Hr) (Ho' & Hd' & Hr'). split; [congruence|]. split.
  - intros other Hne. by rewrite Hd', Hd.
  - by rewrite Hr', Hr.
Qed.

Lemma patchOp_within resourceType op item σ :
  within resourceType σ (patchOp resourceType op item σ).2.
Proof.
  destruct (patchOp_outcome resourceType op item σ)
    as [[-> _]|(uid & _ & [(d & Hd & _ & Ho & Hdata)|(e & _ & Ho & Hdata)])].
  - apply within_refl.
  - destruct (patchData_frame _ _ _ _ _ _ Hd) as (Hother & Hs & Hs').
    split; [done|]. rewrite Hdata. split; [done|]. by split.
  - split; [done|]. rewrite Hdata. by split.
Qed.

(** X17. The frame of [patch].  Whatever the payload, [patch] returns (it
    never panics), leaves every map object as it was, leaves the collections
    of the other resource types as they were, and neither creates nor drops
    the root document of its own resource type. *)
Theorem patch_frame (resourceType : string) (p : payload) (σ : state) :
  (∃ r, (patch resourceType p σ).1 = Return r) ∧
  objects (patch resourceType p σ).2 = objects σ ∧
  (∀ other, other ≠ resourceType →
     data (patch resourceType p σ).2 !! other = data σ !! other) ∧
  (is_Some (data (patch resourceType p σ).2 !! resourceType) ↔
   is_Some (data σ !! resourceType)).
Proof.
  assert (∀ op item σ0, ∃ r, (patchOp resourceType op item σ0).1 = Return r)
    as Hret.
  { intros op item σ0.
    destruct (patchOp_outcome resourceType op item σ0)
      as [[-> _]|(uid & _ & [(d & _ & -> & _)|(e & -> & _)])]; by eexists. }
  split.
  - destruct p as [items|[] Object|e|]; cbn [patch]; try (by eexists).
    + apply forEach_returns. intros x σ0. apply Hret.
    + apply Hret.
    + apply Hret.
    + apply Hret.
  - change (within resourceType σ (patch resourceType p σ).2).
    destruct p as [items|[] Object|e|]; cbn [patch];
      try apply patchOp_within; try apply within_refl.
    apply (forEach_invariant (within resourceType σ)); [|apply within_refl].
    intros x σ0 Hσ0. eapply within_trans; [exact Hσ0|apply patchOp_within].
Qed.

(** X18. Entries stay under their own uid.  If every entry of the collection
    of [resourceType] is a document stored under its own [metadata.uid],
    that is still so after [patch] on [resourceType], whatever the payload:
    adds and replaces store an object under its uid, removes only take
    entries away. *)
Theorem patch_keeps_keyed_by_uid (resourceType : string) (p : payload)
    (σ : state) :
  (∀ coll, data σ !! resourceType = Some coll →
           keyed_by_uid (objects σ) coll) →
  ∀ coll, data (patch resourceType p σ).2 !! resourceType = Some coll →
          keyed_by_uid (objects σ) coll.
Proof.
  set (I := λ σ0 : state,
         objects σ0 = objects σ ∧
         ∀ coll, data σ0 !! resourceType = Some coll →
                 keyed_by_uid (objects σ) coll).
  assert (∀ op item σ0, I σ0 → I (patchOp resourceType op item σ0).2) as Hop.
  { intros op item σ0 [Hobj Hkeyed].
    destruct (patchOp_outcome resourceType op item σ0)
      as [[-> _]|(uid & Huid & [(d & Hd & _ & Ho & Hdata)|(e & _ & Ho & Hdata)])].
    - by split.
    - split; [congruence|]. rewrite Hdata. intros coll' Hcoll'.
      revert Hd. unfold patchData. cbn [fst snd].
      destruct (data σ0 !! resourceType) as [coll|] eqn:Hroot; [|done].
      specialize (Hkeyed coll eq_refl).
      assert (keyed_by_uid (objects σ) (<[uid := item]> coll)) as Hins.
      { intros k doc. destruct (decide (k = uid)) as [->|Hne].
        - rewrite lookup_insert_eq. intros [= <-]. by rewrite <- Hobj.
        - rewrite lookup_insert_ne by done. apply Hkeyed. }
      assert (keyed_by_uid (objects σ) (delete uid coll)) as Hdel.
      { intros k doc Hk. apply lookup_delete_Some in Hk as [_ Hk].
        by apply Hkeyed. }
      destruct op; [|destruct (coll !! uid)..]; intros [= <-];
        rewrite lookup_insert_eq in Hcoll'; injection Hcoll' as <-; done.
    - split; [congruence|]. by rewrite Hdata. }
  intros Hstart.
  assert (I (patch resourceType p σ).2) as [_ Hend]; [|exact Hend].
  destruct p as [items|[] Object|e|]; cbn [patch];
    try (apply Hop; by split); try (by split).
  apply (forEach_invariant I); [|by split].
  intros x σ0. apply Hop.
Qed.

Lemma patch_keeps_keyed_by_uid_witness :
  ∃ coll,
    data (patch "nodes" (resync [MapRef node2; MapRef p1]) start).2 !! "nodes"
      = Some coll ∧
    keyed_by_uid (objects start) coll.
Proof.
  eexists. split; [reflexivity|].
  apply (patch_keeps_keyed_by_uid "nodes" (resync [MapRef node2; MapRef p1]) start);
    [|reflexivity].
  intros coll Hcoll.
  assert (Some coll = Some ∅) as [= ->] by (rewrite <- Hcoll; reflexivity).
  intros k doc Hk. by rewrite lookup_empty in Hk.
Defined.

End Snapshots.

(** ** [init] *)

Section Init.

Import Cluster.

Lemma init_run σ :
  init σ =
  (Return None,
   {| objects := objects σ;
      data := <["services" := ∅]> (<["replicationcontrollers" := ∅]>
                (<["nodes" := ∅]> (<["pods" := ∅]> (data σ))));
      trace := trace σ ++ [EvNewTransaction; EvClose] |}).
Proof.
  unfold init, baseDocs. go. unfold WriteRoot. go.
  by rewrite <- !app_assoc.
Qed.

(** X19. [init] makes the four root documents.  It returns no error, and
    afterwards each of [pods], [nodes], [replicationcontrollers] and
    [services] is an empty collection, whatever it held before; every other
    root document and every map object is as it was. *)
Theorem init_roots (σ : state) :
  ∃ σ',
    init σ = (Return None, σ') ∧
    objects σ' = objects σ ∧
    (∀ x, x ∈ baseDocs → data σ' !! x = Some ∅) ∧
    (∀ x, x ∉ baseDocs → data σ' !! x = data σ !! x).
Proof.
  eexists. split; [apply init_run|]. cbn [objects data]. split; [done|].
  unfold baseDocs. split.
  - intros x Hx. repeat (apply elem_of_cons in Hx as [->|Hx]);
      [..|by apply elem_of_nil in Hx];
      repeat (rewrite lookup_insert_eq || rewrite lookup_insert_ne by done);
      done.
  - intros x Hx. rewrite !not_elem_of_cons in Hx.
    destruct Hx as (? & ? & ? & ? & _).
    by rewrite !lookup_insert_ne.
Qed.

Lemma upserted_cons coll w ws :
  upserted coll (w :: ws) = upserted (<[w.1.2.2 := w.2]> coll) ws.
Proof. done. Qed.

Lemma upserted_keeps coll ws k :
  is_Some (coll !! k) → is_Some (upserted coll ws !! k).
Proof.
  revert coll. induction ws as [|w ws IH]; intros coll Hk; [done|].
  rewrite upserted_cons. apply IH. rewrite lookup_insert_is_Some.
  destruct (decide (w.1.2.2 = k)); eauto.
Qed.

Lemma upserted_has resourceType h items ws :
  Forall2 (upserts resourceType h) items ws →
  ∀ coll item uid, item ∈ items → uidOf h item = Some uid →
                   is_Some (upserted coll ws !! uid).
Proof.
  induction 1 as [|item0 w items ws (uid0 & Huid0 & ->) _ IH];
    intros coll item uid Hin Huid.
  - by apply elem_of_nil in Hin.
  - rewrite upserted_cons. cbn [fst snd].
    apply elem_of_cons in Hin as [->|Hin]; [|by eapply IH].
    apply upserted_keeps. rewrite Huid0 in Huid. injection Huid as ->.
    rewrite lookup_insert_eq. by eexists.
Qed.

Lemma upserted_keyed resourceType h items ws :
  Forall2 (upserts resourceType h) items ws →
  ∀ coll, keyed_by_uid h coll → keyed_by_uid h (upserted coll ws).
Proof.
  induction 1 as [|item0 w items ws (uid0 & Huid0 & ->) _ IH];
    intros coll Hkeyed; [done|].
  rewrite upserted_cons. cbn [fst snd]. apply IH.
  intros k doc. destruct (decide (k = uid0)) as [->|Hne].
  - rewrite lookup_insert_eq. by intros [= <-].
  - rewrite lookup_insert_ne by done. apply Hkeyed.
Qed.

(** X20. After [init] a snapshot cannot miss its root.  For any state and
    any of the four resource types, [init] followed by [patch] of a Resync
    whose items all have a string [metadata.uid] returns no error, and the
    collection then holds, under the uid of every item, a document with that
    uid. *)
Theorem init_then_resync (resourceType : string) (items : list value)
    (σ : state) :
  resourceType ∈ baseDocs →
  Forall (λ item, is_Some (uidOf (objects σ) item)) items →
  ∃ σ1 σ2,
    init σ = (Return None, σ1) ∧
    patch resourceType (resync items) σ1 = (Return None, σ2) ∧
    ∀ item uid, item ∈ items → uidOf (objects σ) item = Some uid →
      ∃ doc, data σ2 !! resourceType ≫= (.!! uid) = Some doc ∧
             uidOf (objects σ) doc = Some uid.
Proof.
  intros Hbase Hall.
  destruct (init_roots σ) as (σ1 & Hinit & Hobj & Hroots & _).
  destruct (patch_resync_all resourceType items σ1 ∅)
    as (σ2 & ws & Hrun & _ & Hdata & _ & Hups).
  { by apply Hroots. }
  { by rewrite Hobj. }
  rewrite Hobj in Hups.
  exists σ1, σ2. do 2 (split; [done|]).
  intros item uid Hin Huid. rewrite Hdata, lookup_insert_eq. cbn.
  destruct (upserted_has _ _ _ _ Hups ∅ item uid Hin Huid) as [doc Hdoc].
  exists doc. split; [done|].
  apply (upserted_keyed _ _ _ _ Hups ∅); [|done].
  intros k d Hk. by rewrite lookup_empty in Hk.
Qed.

Lemma init_then_resync_witness :
  ∃ σ1 σ2,
    init bare = (Return None, σ1) ∧
    patch "nodes" (resync [MapRef node2; MapRef p1]) σ1 = (Return None, σ2) ∧
    ∀ item uid, item ∈ [MapRef node2; MapRef p1] →
      uidOf (objects bare) item = Some uid →
      ∃ doc, data σ2 !! "nodes" ≫= (.!! uid) = Some doc ∧
             uidOf (objects bare) doc = Some uid.
Proof.
  apply init_then_resync.
  - apply list_elem_of_further, list_elem_of_here.
  - repeat constructor; eexists; reflexivity.
Defined.

End Init.

(** ** What every attempt keeps to *)

Definition is_open (e : event) : bool :=
  match e with EvNewTransaction => true | _ => false end.

Definition is_close (e : event) : bool :=
  match e with EvClose => true | _ => false end.

Definition is_post (e : event) : bool :=
  match e with EvDo _ => true | _ => false end.

Fixpoint count (p : event → bool) (evs : list event) : nat :=
  match evs with
  | [] => 0
  | e :: rest => (if p e then 1 else 0) + count p rest
  end.

(** Every request to the control plane comes after an add of [pod] under
    [data.pods]. *)
Fixpoint posts_follow_add (pod : loc) (added : bool) (evs : list event) : bool :=
  match evs with
  | [] => true
  | EvWrite AddOp (root, _) (MapRef l) :: rest =>
      posts_follow_add pod (added || (String.eqb root "pods" && Pos.eqb l pod)) rest
  | EvDo _ :: rest => added && posts_follow_add pod added rest
  | _ :: rest => posts_follow_add pod added rest
  end.

(** The calls of an attempt between the query and the close. *)
Inductive after_query (pod : loc) : list event → Prop :=
| nothing_more : after_query pod []
| one_line line : after_query pod [EvLog Info line]
| add_failed uid : after_query pod [EvWrite AddOp ("pods", uid) (MapRef pod)]
| bound uid post line :
    (post = [] ∨ ∃ req, post = [EvDo req]) →
    after_query pod
      (EvWrite AddOp ("pods", uid) (MapRef pod) :: post ++ [EvLog Info line])
| retracted uid post line :
    (post = [] ∨ ∃ req, post = [EvDo req]) →
    after_query pod
      (EvWrite AddOp ("pods", uid) (MapRef pod) :: post ++
       [EvLog Error line; EvWrite RemoveOp ("pods", uid) Nil]).

Section Discipline.

Import Cluster.

Lemma weights_dec m : weights m ∨ ¬ weights m.
Proof.
  induction m as [|[k v] m [IH|IH]].
  - left. constructor.
  - destruct v; try (right; intros H; inversion H as [|?? [w Hw] _]; done).
    left. constructor; [cbn; eauto|done].
  - right. intros H. inversion H. done.
Qed.

Lemma has_spec_dec h pod :
  (∃ sp spm, has_spec h pod sp spm) ∨ (∀ sp spm, ¬ has_spec h pod sp spm).
Proof.
  unfold has_spec.
  destruct (index (load h pod) "spec") as [| | | | |sp] eqn:Hspec;
    try (right; by intros ?? [? ?]).
  destruct (h !! sp) as [spm|] eqn:Hsp.
  - left. eauto.
  - right. intros ?? [[= <-] ?]. congruence.
Qed.

Lemma schedulePod_no_uid E pod σ :
  ¬ is_string (field (objects σ) pod "metadata" "uid") →
  schedulePod E pod σ = (Return (Some (MalformedObject (MapRef pod))), σ).
Proof.
  intros Hno. unfold schedulePod. go.
  unfold getUID. rewrite getMetadata_field.
  destruct (field (objects σ) pod "metadata" "uid") eqn:Hf; try done.
  destruct Hno. by eexists.
Qed.

(** Every way an attempt can go. *)
Lemma schedulePod_shape E pod σ :
  ∃ o σ' evs,
    schedulePod E pod σ = (o, σ') ∧
    trace σ' = (trace σ ++ evs)%list ∧
    (evs = [] ∨
     ∃ t, evs = ([EvNewTransaction; EvQuery pod] ++ t ++ [EvClose])%list ∧
          after_query pod t) ∧
    (objects σ' = objects σ ∨
     ∃ sp spm v, objects σ !! sp = Some spm ∧
                 objects σ' = assigned (objects σ) sp spm v).
Proof.
  destruct (is_string_dec (field (objects σ) pod "metadata" "uid"))
    as [[uid Huid]|Hno].
  2: { rewrite schedulePod_no_uid by done. eexists _, _, [].
       split; [done|]. rewrite app_nil_r. eauto. }
  destruct (topdown_Query E (data σ) (objects σ) pod) as [[|v]|err] eqn:Hq.
  - rewrite (schedulePod_undefined E pod σ uid) by done.
    eexists _, _, _. split; [done|]. split; [done|]. split; [|by left].
    right. eexists [_]. split; [done|]. constructor.
  - assert ((∀ m, v ≠ MapRef m) ∨ ∃ m, v = MapRef m) as [Hv|[m ->]]
      by (destruct v; eauto).
    { rewrite (schedulePod_not_a_map E pod σ uid v) by done.
      eexists _, _, _. split; [done|]. split; [done|]. split; [|by left].
      right. eexists [_]. split; [done|]. constructor. }
    destruct (weights_dec (load (objects σ) m)) as [Hw|Hw].
    2: { rewrite (schedulePod_not_weights E pod σ uid m) by done.
         eexists _, _, _. split; [done|]. split; [done|]. split; [|by left].
         right. exists []. split; [done|]. constructor. }
    destruct (last (sort_Sort E (rankingsOf (load (objects σ) m))))
      as [top|] eqn:Hlast.
    2: { rewrite (schedulePod_no_nodes E pod σ uid m) by done.
         eexists _, _, _. split; [done|]. split; [done|]. split; [|by left].
         right. eexists [_]. split; [done|]. constructor. }
    destruct (has_spec_dec (objects σ) pod) as [(sp & spm & Hspec)|Hnospec].
    2: { destruct (schedulePod_no_spec E pod σ uid m top) as [why ->]; try done.
         eexists _, _, _. split; [done|]. split; [done|]. split; [|by left].
         right. exists []. split; [done|]. constructor. }
    pose proof Hspec as [_ Hsp].
    destruct (data σ !! "pods") as [coll|] eqn:Hpods.
    2: { rewrite (schedulePod_no_root E pod σ uid m sp spm top) by done.
         eexists _, _, _. split; [done|]. split; [done|]. split; [|right; eauto].
         right. eexists [_]. split; [done|]. constructor. }
    destruct (schedulePod_selected E pod σ uid m top sp spm coll)
      as (r & evs & Hb & ->); try done.
    destruct (bindPod_events E pod
                {| objects := assigned (objects σ) sp spm (Str (nodeName top));
                   data := <["pods" := <[uid := MapRef pod]> coll]> (data σ);
                   trace := trace σ ++ [EvNewTransaction; EvQuery pod;
                                        EvWrite AddOp ("pods", uid) (MapRef pod)] |})
      as (r' & evs' & Hb' & Hevs).
    rewrite Hb in Hb'. injection Hb' as <- Hrec.
    assert (evs = evs') as <- by (cbn in Hrec; by apply app_inv_head in Hrec).
    destruct r as [err|]; eexists _, _, _; (split; [done|]);
      cbn [trace objects recorded].
    + split; [by rewrite <- !app_assoc|]. split; [|right; eauto].
      right. eexists (_ :: evs ++ [_; _]). split.
      * cbn. by rewrite <- !app_assoc.
      * by constructor.
    + split; [by rewrite <- !app_assoc|]. split; [|right; eauto].
      right. eexists (_ :: evs ++ [_]). split.
      * cbn. by rewrite <- !app_assoc.
      * by constructor.
  - rewrite (schedulePod_query_error E pod σ uid err) by done.
    eexists _, _, _. split; [done|]. split; [done|]. split; [|by left].
    right. exists []. split; [done|]. constructor.
Qed.

(** X21. No transaction is left open.  Whatever the pod, the store, the
    oracle and the control plane do, and also when it panics, an attempt
    either makes no call at all or opens exactly one transaction first and
    closes it last; it sends at most one request to the control plane, and
    only after it has added the pod under [data.pods]. *)
Theorem schedulePod_discipline (E : Env) (pod : loc) (σ : state) :
  ∃ evs,
    trace (schedulePod E pod σ).2 = (trace σ ++ evs)%list ∧
    (evs = [] ∨ (head evs = Some EvNewTransaction ∧ last evs = Some EvClose)) ∧
    count is_open evs = count is_close evs ∧
    (count is_open evs ≤ 1)%nat ∧
    (count is_post evs ≤ 1)%nat ∧
    posts_follow_add pod false evs = true.
Proof.
  destruct (schedulePod_shape E pod σ) as (o & σ' & evs & -> & Ht & Hshape & _).
  exists evs. split; [done|].
  destruct Hshape as [->|(t & -> & Ht')]; [cbn; repeat split; eauto|].
  assert (∀ post : list event,
            post = [] ∨ (∃ req, post = [EvDo req]) →
            ∀ rest, last (post ++ rest ++ [EvClose]) = Some EvClose) as Hlast.
  { intros post Hpost rest. rewrite app_assoc. apply last_snoc. }
  destruct Ht' as [|line|uid|uid post line Hpost|uid post line Hpost]; cbn.
  1-3: repeat split; eauto.
  1-2: destruct Hpost as [->|[req ->]]; cbn;
         rewrite ?String.eqb_refl, ?Pos.eqb_refl; cbn; repeat split; eauto.
Qed.

(** X22. An attempt changes nothing but a [nodeName].  Whatever happens,
    after [schedulePod] every key other than ["nodeName"] of every map
    object reads as before; so no document changes its [metadata.uid],
    [metadata.name] or [metadata.namespace]. *)
Theorem schedulePod_keeps_identity (E : Env) (pod : loc) (σ : state) :
  (∀ l k, k ≠ "nodeName" →
     index (load (objects (schedulePod E pod σ).2) l) k =
     index (load (objects σ) l) k) ∧
  (∀ obj key, key ≠ "nodeName" →
     getMetadata key obj (objects (schedulePod E pod σ).2) =
     getMetadata key obj (objects σ)).
Proof.
  destruct (schedulePod_shape E pod σ) as (o & σ' & evs & -> & _ & _ & Hobj).
  cbn [snd].
  assert (∀ l k, k ≠ "nodeName" →
            index (load (objects σ') l) k = index (load (objects σ) l) k) as Hidx.
  { intros l k Hk. destruct Hobj as [->|(sp & spm & v & Hsp & ->)]; [done|].
    by apply index_load_assigned. }
  split; [done|]. intros obj key Hkey. unfold getMetadata.
  destruct obj; try done. rewrite Hidx by done.
  destruct (index (load (objects σ) l) "metadata"); try done.
  by rewrite Hidx.
Qed.

End Discipline.
